(** * Group chat workflow, answer extraction and archive tool: a Rocq model

    A shallow embedding of

    - [src/argo/utils/utils.py]            ([check_tag_presence],
      [extract_tag_content]),
    - [src/argo/workflows/group_chat.py]   ([_CheckConsensusAndEscalate],
      [_UpdateChatHistory], [get_group_chat_agent]),
    - [evals/gaia_benchmark.py]            ([extract_final_answer] and the
      result record built by [evaluate_gaia_benchmark]),
    - [src/argo/tools/unzip.py]            ([_get_file_list],
      [_extract_archive], [unzip_file]),

    followed by the properties of the specification that concern them.

    Part I holds the definitions, Part II the lemmas and theorems about
    the properties of the specification, Part III further properties of
    the code. *)

From Stdlib Require Import NArith Lia.
From stdpp Require Import base option list numbers strings pretty.

Local Open Scope N_scope.

(* ===================================================================== *)
(** * Part I: the embedding                                               *)
(* ===================================================================== *)

(** ** Python text

    A Python [str] is a sequence of Unicode code points; a code point is a
    number.  [py] reads an ASCII literal as such a sequence. *)

Definition str := list N.

Definition py (s : string) : str :=
  map Ascii.N_of_ascii (String.list_ascii_of_string s).
Arguments py s%_string : simpl never.

(** [str.isspace] on one code point.  It decides what [str.strip] removes
    and what the regular expression class [\s] matches in a [str] pattern. *)
Definition isspace (c : N) : bool :=
  ((0x09 <=? c) && (c <=? 0x0D)) || ((0x1C <=? c) && (c <=? 0x20))
  || (c =? 0x85) || (c =? 0xA0) || (c =? 0x1680)
  || ((0x2000 <=? c) && (c <=? 0x200A))
  || (c =? 0x2028) || (c =? 0x2029) || (c =? 0x202F) || (c =? 0x205F)
  || (c =? 0x3000).

Definition newline : N := 0x0A.

Definition is_upper_ascii (c : N) : bool := (0x41 <=? c) && (c <=? 0x5A).
Definition is_lower_ascii (c : N) : bool := (0x61 <=? c) && (c <=? 0x7A).
Definition ascii_lower (c : N) : N := if is_upper_ascii c then c + 32 else c.

(** A literal ASCII character [p] of a [str] pattern compiled with
    [re.IGNORECASE], tried on the code point [c].  A letter matches both of
    its cases and, as the [re] documentation lists, four letters outside
    ASCII: U+0130 and U+0131 match [i], U+017F matches [s], U+212A matches
    [k].  Any other character matches itself only. *)
Definition literal_ignorecase (p c : N) : bool :=
  let lo := ascii_lower p in
  if is_lower_ascii lo then
    (ascii_lower c =? lo)
    || ((lo =? 0x69) && ((c =? 0x130) || (c =? 0x131)))
    || ((lo =? 0x73) && (c =? 0x17F))
    || ((lo =? 0x6B) && (c =? 0x212A))
  else c =? p.

(** A run of literal pattern characters matched at the head of [text]:
    the text left after the match, if there is one. *)
Fixpoint match_literal (lit text : str) : option str :=
  match lit with
  | [] => Some text
  | p :: lit' =>
      match text with
      | c :: text' =>
          if literal_ignorecase p c then match_literal lit' text' else None
      | [] => None
      end
  end.

(** Whether an attempt matched. *)
Definition matches (m : option str) : bool :=
  match m with Some _ => true | None => false end.

(** Greedy [\s*]: the text after the longest run of white space. *)
Fixpoint skip_spaces (text : str) : str :=
  match text with
  | c :: text' => if isspace c then skip_spaces text' else text
  | [] => []
  end.

(** [str.lstrip()], [str.rstrip()] and [str.strip()]. *)
Definition lstrip (s : str) : str := skip_spaces s.
Definition rstrip (s : str) : str := rev (skip_spaces (rev s)).
Definition strip (s : str) : str := rstrip (lstrip s).

(** [sep.join(parts)]. *)
Fixpoint join (sep : str) (parts : list str) : str :=
  match parts with
  | [] => []
  | [p] => p
  | p :: rest => p ++ sep ++ join sep rest
  end.

(** [str.split('\n')]: the pieces between line feeds, always at least one. *)
Fixpoint split_lines (s : str) : list str :=
  match s with
  | [] => [[]]
  | c :: s' =>
      if c =? newline then [] :: split_lines s'
      else match split_lines s' with
           | l :: ls => (c :: l) :: ls
           | [] => [[c]]
           end
  end.

(** ** [utils.py]: [check_tag_presence] *)

(** One attempt of the pattern [<{tag}\s*/>|<{tag}>] at the head of [text].
    Both alternatives start with [<] and the tag; the first goes on with
    white space and [/>], the second with [>].  As [/] is no white space,
    the greedy [\s*] has only its longest run to offer. *)
Definition match_tag_here (tag text : str) : bool :=
  match match_literal (py "<" ++ tag) text with
  | Some rest =>
      matches (match_literal (py "/>") (skip_spaces rest))
      || matches (match_literal (py ">") rest)
  | None => false
  end.

(** [re.search]: the pattern is tried at every position of the text, the
    end included. *)
Fixpoint search_tag (tag text : str) : bool :=
  match_tag_here tag text
  || match text with
     | _ :: text' => search_tag tag text'
     | [] => false
     end.

(** [bool(re.search(rf"<{tag}\s*/>|<{tag}>", text, re.IGNORECASE))].  The tag
    is pasted into the pattern as it is: the model reads it as literal
    characters, which is what the pattern does for a tag of ASCII letters,
    digits and underscores such as the one the workflow passes. *)
Definition check_tag_presence (text tag : str) : bool := search_tag tag text.

(** ** Session state

    [session.state] is a Python [dict] from keys to texts: an association
    list in insertion order whose keys are pairwise different.  Assigning
    to a key that is present replaces its value in place, assigning to a
    new key appends it. *)

Definition dict := list (str * str).

Fixpoint dict_get (k : str) (d : dict) : option str :=
  match d with
  | [] => None
  | (k', v) :: d' => if decide (k = k') then Some v else dict_get k d'
  end.

(** [d.get(k, default)]. *)
Definition dict_get_default (k default : str) (d : dict) : str :=
  match dict_get k d with
  | Some v => v
  | None => default
  end.

(** [d[k] = v]. *)
Fixpoint dict_set (k v : str) (d : dict) : dict :=
  match d with
  | [] => [(k, v)]
  | (k', v') :: d' =>
      if decide (k = k') then (k, v) :: d' else (k', v') :: dict_set k v d'
  end.

(** [d.update(delta)]. *)
Definition dict_update (delta d : dict) : dict :=
  fold_left (fun acc kv => dict_set kv.1 kv.2 acc) delta d.

(** ** Events

    An agent of the framework reports through events.  The part of an event
    the workflow uses: its author, the [state_delta] of its actions, which
    the runner writes into the session state, and the [escalate] flag of
    its actions. *)

Record Event := {
  author : str;
  state_delta : dict;
  escalate : bool
}.

(** ** [group_chat.py]: [_CheckConsensusAndEscalate] *)

Definition Coordinator_message : str := py "Coordinator_message".
Definition consensus_reached : str := py "consensus_reached".

Definition _CheckConsensusAndEscalate (name : str) (state : dict) : list Event :=
  [ {| author := if decide (name = []) then py "Consensus Check" else name;
       state_delta := [];
       escalate :=
         check_tag_presence
           (dict_get_default Coordinator_message [] state)
           consensus_reached |} ].

(** ** [group_chat.py]: [_UpdateChatHistory] *)

Definition chat_history : str := py "chat_history".

(** [s] without its last [length suf] characters when these are [suf]. *)
Definition remove_suffix (suf s : str) : option str :=
  let n := (length s - length suf)%nat in
  if decide (drop n s = suf) then Some (take n s) else None.

(** [name_pattern.match(k)] for [^(?P<name>.+)_message$], compiled without
    flags: the group [name] of the match, if the key matches.  [.] is any
    character but a line feed and [.+] needs one at least; [$] stands at
    the end of the key or before a line feed that ends it.  Whatever the
    backtracking of the greedy [.+], the name is the key without that
    ending, so a key has at most one match. *)
Definition slot_name (n : str) : option str :=
  if decide (n <> [] /\ newline ∉ n) then Some n else None.

Definition name_pattern_match (k : str) : option str :=
  match remove_suffix (py "_message") k ≫= slot_name with
  | Some n => Some n
  | None => remove_suffix (py "_message" ++ [newline]) k ≫= slot_name
  end.

(** The comprehension
    [{name_pattern.match(k).group("name"): v for k, v in state.items()
      if name_pattern.match(k)}]:
    the items are visited in the order of the state and written into a
    new dictionary, so a name met twice keeps its first place and its last
    message. *)
Definition new_messages (state : dict) : dict :=
  fold_left
    (fun acc kv =>
       match name_pattern_match kv.1 with
       | Some name => dict_set name kv.2 acc
       | None => acc
       end)
    state [].

(** [f"[{name}]: {message}\n"]. *)
Definition transcript_entry (item : str * str) : str :=
  py "[" ++ item.1 ++ py "]: " ++ item.2 ++ [newline].

Definition updated_chat_history (state : dict) : str :=
  (dict_get_default chat_history [] state ++ [newline])
  ++ join [newline] (map transcript_entry (new_messages state)).

Definition _UpdateChatHistory (name : str) (state : dict) : list Event :=
  [ {| author := name;
       state_delta := [(chat_history, updated_chat_history state)];
       escalate := false |} ].

(** ** The agents of a group chat *)

(** Modelled from the spec: the agents handed to [get_group_chat_agent]
    belong to the framework and to the caller, not to the sources.  After
    sections 3 and 4.2 of the specification a participant has an identity
    and an output slot, the session key under which its message of the
    round is stored, and the text generation behind it is opaque: [reply]
    gives, round by round, the message it produces, or [None] when it
    produces no output in that round.  Quantifying over [reply] quantifies
    over every behaviour of the generation step. *)
Record LlmAgent := {
  agent_name : str;
  output_key : str;
  reply : nat -> option str
}.

(** One round of an agent: an event carrying its message under its output
    key when it produces one. *)
Definition llm_run (a : LlmAgent) (round : nat) : list Event :=
  match reply a round with
  | Some message =>
      [ {| author := agent_name a;
           state_delta := [(output_key a, message)];
           escalate := false |} ]
  | None => []
  end.

(** The agents a loop is made of: the four kinds [get_group_chat_agent]
    puts into its [sub_agents]. *)
Inductive BaseAgent :=
  | Llm (a : LlmAgent)
  | ParallelAgent (name description : str) (sub_agents : list LlmAgent)
  | UpdateChatHistory (name : str)
  | CheckConsensusAndEscalate (name : str).

(** The events of one agent in round [round], started on [state].  The
    participants of a [ParallelAgent] all start on the state the group was
    started on; their events are listed in the order of the group (section
    4.2 of the specification promises no order among them). *)
Definition run_async (b : BaseAgent) (round : nat) (state : dict) : list Event :=
  match b with
  | Llm a => llm_run a round
  | ParallelAgent _ _ subs => concat (map (fun a => llm_run a round) subs)
  | UpdateChatHistory name => _UpdateChatHistory name state
  | CheckConsensusAndEscalate name => _CheckConsensusAndEscalate name state
  end.

(** ** [group_chat.py]: [get_group_chat_agent] *)

(** The fields [get_group_chat_agent] sets.  [max_iterations] counts
    rounds. *)
Record LoopAgent := {
  loop_name : str;
  loop_description : str;
  loop_sub_agents : list BaseAgent;
  max_iterations : nat
}.

Definition get_group_chat_agent (name description : str)
    (coordinator_agent : LlmAgent) (group_agents : list LlmAgent)
    (max_iterations : nat) : LoopAgent :=
  let parallel_agents :=
    ParallelAgent (py "Working_Group") (py "Parallel working group agents")
      group_agents in
  let update_chat_history := UpdateChatHistory (py "Update_Chat_History") in
  let check_consensus := CheckConsensusAndEscalate (py "Check_Consensus") in
  {| loop_name := name;
     loop_description := description;
     loop_sub_agents :=
       [parallel_agents; Llm coordinator_agent; update_chat_history;
        check_consensus];
     max_iterations := max_iterations |}.

(** The default of the parameter [max_iterations]. *)
Definition default_max_iterations : nat := 10.

(** ** The round controller *)

(** Modelled from the spec: the loop of the framework's [LoopAgent], which
    [get_group_chat_agent] only instantiates, is not among the sources.
    Section 4.6 of the specification gives it as a state machine over
    [RUNNING(round_index)], [CONSENSUS_REACHED] and [EXHAUSTED]. *)
Inductive Controller :=
  | RUNNING (round_index : nat)
  | CONSENSUS_REACHED
  | EXHAUSTED.

(** Modelled from the spec: the runner of the framework, absent from the
    sources, writes the [state_delta] of every event into the session, and
    the loop stops at the first event that escalates (sections 4.5 and
    4.6). *)
Fixpoint deliver (events : list Event) (state : dict) : dict * bool :=
  match events with
  | [] => (state, false)
  | e :: rest =>
      let state' := dict_update (state_delta e) state in
      if escalate e then (state', true) else deliver rest state'
  end.

(** One round: the sub-agents in their order, each started on the state
    the previous ones left. *)
Fixpoint run_sub_agents (agents : list BaseAgent) (round : nat) (state : dict)
    : dict * bool :=
  match agents with
  | [] => (state, false)
  | b :: rest =>
      let '(state', stop) := deliver (run_async b round state) state in
      if stop then (state', true) else run_sub_agents rest round state'
  end.

(** A run of the loop: the state of the controller, the session, and the
    number of rounds executed so far. *)
Record Run := {
  controller : Controller;
  session : dict;
  rounds_executed : nat
}.

(** Modelled from the spec: the transitions of section 4.6, the loop of
    [LoopAgent] being absent from the sources.  From [RUNNING(i)] a round
    is executed; an escalation leads to [CONSENSUS_REACHED], otherwise
    [i + 1 = max_iterations] leads to [EXHAUSTED], otherwise the controller
    goes on with [RUNNING(i + 1)].  The terminal states stay.  This is the
    transition of a round in which no step fails; [task_step] below adds
    the failure semantics of that section. *)
Definition step (loop : LoopAgent) (r : Run) : Run :=
  match controller r with
  | RUNNING i =>
      let '(state', stop) := run_sub_agents (loop_sub_agents loop) i (session r) in
      {| controller :=
           if stop then CONSENSUS_REACHED
           else if decide (S i = max_iterations loop) then EXHAUSTED
           else RUNNING (S i);
         session := state';
         rounds_executed := S (rounds_executed r) |}
  | CONSENSUS_REACHED | EXHAUSTED => r
  end.

(** The initial state [RUNNING(0)] on the session of the task. *)
Definition start (state : dict) : Run :=
  {| controller := RUNNING 0; session := state; rounds_executed := 0 |}.

(** The run after [k] transitions of the controller. *)
Definition run (loop : LoopAgent) (state : dict) (k : nat) : Run :=
  Nat.iter k (step loop) (start state).

(** ** Failing steps *)

(** Modelled from the spec: how a round ends.  Besides going on to the
    next round and the escalation of section 4.5, a round ends when one of
    its steps fails with an unrecoverable error (section 4.6, "Failure
    semantics"). *)
Inductive RoundEnd :=
  | Completed
  | Escalated
  | Thrown.

(** Modelled from the spec: the failure semantics of sections 4.2, 4.6 and
    7, which the framework implements and the sources do not hold.  The
    failure of a participant is isolated: its slot is left as it is and
    the round goes on, as for a participant that produces nothing, which
    [reply] tells.  An unrecoverable error in a step of the round, such as
    an invocation of the coordinator that throws, stops the round at that
    step, the session being as the steps before it left it.  [throws round
    b] tells whether the step [b] fails so in that round. *)
Fixpoint run_sub_agents_or_throw (throws : nat -> BaseAgent -> bool)
    (agents : list BaseAgent) (round : nat) (state : dict) : dict * RoundEnd :=
  match agents with
  | [] => (state, Completed)
  | b :: rest =>
      if throws round b then (state, Thrown)
      else
        let '(state', stop) := deliver (run_async b round state) state in
        if stop then (state', Escalated)
        else run_sub_agents_or_throw throws rest round state'
  end.

(** Modelled from the spec: a task run is in a state of the round
    controller, or it has ended with an error in some round, the partial
    session being kept for the caller (section 4.6). *)
Inductive TaskRun :=
  | InLoop (r : Run)
  | TASK_ERROR (failed_round : nat) (partial_session : dict).

(** Modelled from the spec: a transition of a task run.  A round in which
    no step throws is the round of [step]; an error propagates out of the
    round controller and ends the run, and nothing is retried (section
    4.6). *)
Definition task_step (loop : LoopAgent) (throws : nat -> BaseAgent -> bool)
    (t : TaskRun) : TaskRun :=
  match t with
  | InLoop r =>
      match controller r with
      | RUNNING i =>
          match run_sub_agents_or_throw throws (loop_sub_agents loop) i
                  (session r) with
          | (partial, Thrown) => TASK_ERROR i partial
          | _ => InLoop (step loop r)
          end
      | CONSENSUS_REACHED | EXHAUSTED => t
      end
  | TASK_ERROR _ _ => t
  end.

(** The task run after [k] transitions. *)
Definition task_run (loop : LoopAgent) (throws : nat -> BaseAgent -> bool)
    (state : dict) (k : nat) : TaskRun :=
  Nat.iter k (task_step loop throws) (InLoop (start state)).

(** The state of the controller, if the run has not ended with an error;
    the session; and the number of rounds executed to their end. *)
Definition task_controller (t : TaskRun) : option Controller :=
  match t with
  | InLoop r => Some (controller r)
  | TASK_ERROR _ _ => None
  end.

Definition task_session (t : TaskRun) : dict :=
  match t with
  | InLoop r => session r
  | TASK_ERROR _ partial => partial
  end.

Definition rounds_completed (t : TaskRun) : nat :=
  match t with
  | InLoop r => rounds_executed r
  | TASK_ERROR failed_round _ => failed_round
  end.

(** No step of the round fails. *)
Definition no_step_throws (throws : nat -> BaseAgent -> bool)
    (loop : LoopAgent) (round : nat) : Prop :=
  forall b, b ∈ loop_sub_agents loop -> throws round b = false.

(** No step ever fails. *)
Definition never_throws : nat -> BaseAgent -> bool := fun _ _ => false.

(** The session the driver of [gaia_benchmark.py] starts a task on: a new
    session, with the question under [chat_history] when a file of a
    supported type is attached. *)
Definition new_session (history : option str) : dict :=
  match history with
  | Some h => [(chat_history, h)]
  | None => []
  end.

(** ** [gaia_benchmark.py]: [extract_final_answer] *)

Definition FINAL_ANSWER : str := py "FINAL ANSWER:".

(** The text up to the first line feed, or all of it. *)
Fixpoint take_line (s : str) : str :=
  match s with
  | [] => []
  | c :: s' => if c =? newline then [] else c :: take_line s'
  end.

(** [re.search(r'FINAL ANSWER:\s*(.*?)(?:\n|$)', response,
    re.IGNORECASE | re.DOTALL)]: group 1 of the match, if there is one.
    Wherever the literal matches, the rest of the pattern matches too: the
    greedy [\s*] takes the white space that follows, line feeds included,
    and then the lazy group grows until a line feed or the end of the text
    follows it.  So the match starts at the first place of the literal and
    no backtracking into [\s*] occurs. *)
Fixpoint search_final_answer (text : str) : option str :=
  match match_literal FINAL_ANSWER text with
  | Some rest => Some (take_line (skip_spaces rest))
  | None =>
      match text with
      | _ :: text' => search_final_answer text'
      | [] => None
      end
  end.

(** [str.upper] on one code point, for the code points whose upper case
    holds an ASCII character: the ASCII letters, and the letters whose
    upper case is an ASCII letter alone or with other characters.  Every
    other code point stands for its own upper case, which holds no ASCII
    character; a comparison with an ASCII literal sees no difference. *)
Definition upper_char (c : N) : str :=
  if is_lower_ascii c then [c - 32]
  else if c =? 0xDF then py "SS"
  else if c =? 0x131 then py "I"
  else if c =? 0x149 then [0x2BC; 0x4E]
  else if c =? 0x17F then py "S"
  else if c =? 0x1F0 then [0x4A; 0x30C]
  else if c =? 0x1E96 then [0x48; 0x331]
  else if c =? 0x1E97 then [0x54; 0x308]
  else if c =? 0x1E98 then [0x57; 0x30A]
  else if c =? 0x1E99 then [0x59; 0x30A]
  else if c =? 0x1E9A then [0x41; 0x2BE]
  else if c =? 0xFB00 then py "FF"
  else if c =? 0xFB01 then py "FI"
  else if c =? 0xFB02 then py "FL"
  else if c =? 0xFB03 then py "FFI"
  else if c =? 0xFB04 then py "FFL"
  else if c =? 0xFB05 then py "ST"
  else if c =? 0xFB06 then py "ST"
  else [c].

Definition upper (s : str) : str := concat (map upper_char s).

(** [lines[-1]] and [lines[-2]]. *)
Definition last_line (lines : list str) : str :=
  default [] (lines !! (length lines - 1)%nat).
Definition line_before_last (lines : list str) : str :=
  default [] (lines !! (length lines - 2)%nat).

Definition extract_final_answer (response : str) : option str :=
  match search_final_answer response with
  | Some group1 => Some (strip group1)
  | None =>
      let lines := split_lines (strip response) in
      if bool_decide (1 < length lines)%nat
         && bool_decide (upper (strip (line_before_last lines)) = FINAL_ANSWER)
      then Some (strip (last_line lines))
      else if bool_decide (length lines = 1%nat)
      then Some (strip (default [] (lines !! 0%nat)))
      else None
  end.

(** ** [gaia_benchmark.py]: the result of a task in [evaluate_gaia_benchmark] *)

Definition NO_FINAL_ANSWER_FOUND : str := py "NO_FINAL_ANSWER_FOUND".

(** The two records the driver writes: the one of a task that ran, and the
    one of the [except] clause. *)
Inductive TaskResult :=
  | Answered (task_id model_answer reasoning_trace : str)
  | Failed (task_id error : str).

(** ["\n".join([part.text for part in final_response.parts if part.text])]:
    the parts without a text and with an empty one are left out. *)
Definition final_response_text (parts : list (option str)) : str :=
  join [newline]
    (omap (fun part => match part with
                       | Some (c :: t) => Some (c :: t)
                       | _ => None
                       end) parts).

(** [not final_answer]: no answer, or an empty one. *)
Definition not_answer (final_answer : option str) : bool :=
  match final_answer with
  | None | Some [] => true
  | Some (_ :: _) => false
  end.

(** The lines of the driver from the extraction to the result record. *)
Definition task_result (task_id response_text : str) : TaskResult :=
  let final_answer := extract_final_answer response_text in
  let final_answer :=
    if not_answer final_answer then NO_FINAL_ANSWER_FOUND
    else default [] final_answer in
  Answered task_id final_answer response_text.

(** ** [unzip.py]

    The tool works on the file system through [os], [pathlib], [shutil] and
    the archive modules.  Their calls are the operations of an interface
    over a world [W]; the code of the tool is a program over it.  A query
    reads the world and returns or raises, a command may change the world
    as well. *)

Inductive ExceptionClass :=
  | OSError | BadZipFile | TarError | EOFError | BadGzipFile | LZMAError
  | OtherException.

Record Exception := {
  exception_class : ExceptionClass;
  exception_text : str     (* [str(e)] *)
}.

(** [except OSError]: [BadGzipFile] is a subclass of [OSError]. *)
Definition is_OSError (e : Exception) : bool :=
  match exception_class e with
  | OSError | BadGzipFile => true
  | _ => false
  end.

(** [except (zipfile.BadZipFile, tarfile.TarError, EOFError,
    gzip.BadGzipFile, lzma.LZMAError)]. *)
Definition is_archive_error (e : Exception) : bool :=
  match exception_class e with
  | BadZipFile | TarError | EOFError | BadGzipFile | LZMAError => true
  | _ => false
  end.

Definition is_TarError (e : Exception) : bool :=
  match exception_class e with
  | TarError => true
  | _ => false
  end.

Inductive outcome (A : Type) :=
  | Returns (a : A)
  | Raises (e : Exception).
Arguments Returns {A} a.
Arguments Raises {A} e.

(** The entries of [extracted_files]. *)
Record FileInfo := {
  file_path : str;
  file_type : str;
  file_size : N
}.

(** The values of the dictionary the tool returns. *)
Inductive Value :=
  | Text (s : str)
  | Files (l : list FileInfo).

Definition Response := list (str * Value).

Fixpoint field (k : str) (d : Response) : option Value :=
  match d with
  | [] => None
  | (k', v) :: d' => if decide (k = k') then Some v else field k d'
  end.

Record OS (W : Type) := {
  (* queries *)
  environ_get : str -> W -> option str;
  resolve : str -> W -> outcome str;          (* [str(Path(p).resolve())] *)
  path_exists : str -> W -> outcome bool;
  is_file : str -> W -> outcome bool;
  is_dir : str -> W -> outcome bool;
  stat_size : str -> W -> outcome N;
  iterdir_any : str -> W -> outcome bool;     (* [any(p.iterdir())] *)
  (* [p.rglob('*')]: the paths the iteration yields before it ends, by
     itself or by an exception *)
  rglob : str -> W -> list str;
  is_zipfile : str -> W -> outcome bool;
  is_tarfile : str -> W -> outcome bool;
  (* pure path operations *)
  stem : str -> str;                          (* [Path(p).stem] *)
  joinpath : str -> str -> str;               (* [str(Path(p) / name)] *)
  (* commands *)
  mkdir : str -> W -> outcome unit * W;       (* [mkdir(parents=True, exist_ok=True)] *)
  rmtree : str -> W -> outcome unit * W;
  zip_extractall : str -> str -> W -> outcome unit * W;
  tar_extractall : str -> str -> W -> outcome unit * W;
  gzip_copy : str -> str -> W -> outcome unit * W;
  bz2_copy : str -> str -> W -> outcome unit * W;
  lzma_copy : str -> str -> W -> outcome unit * W
}.
Arguments environ_get {W} _ _ _.
Arguments resolve {W} _ _ _.
Arguments path_exists {W} _ _ _.
Arguments is_file {W} _ _ _.
Arguments is_dir {W} _ _ _.
Arguments stat_size {W} _ _ _.
Arguments iterdir_any {W} _ _ _.
Arguments rglob {W} _ _ _.
Arguments is_zipfile {W} _ _ _.
Arguments is_tarfile {W} _ _ _.
Arguments stem {W} _ _.
Arguments joinpath {W} _ _ _.
Arguments mkdir {W} _ _ _.
Arguments rmtree {W} _ _ _.
Arguments zip_extractall {W} _ _ _ _.
Arguments tar_extractall {W} _ _ _ _.
Arguments gzip_copy {W} _ _ _ _.
Arguments bz2_copy {W} _ _ _ _.
Arguments lzma_copy {W} _ _ _ _.

(** Programs over the world: a result or an exception, and the world left. *)
Definition M (W A : Type) : Type := W -> outcome A * W.

Definition ret {W A} (a : A) : M W A := fun w => (Returns a, w).
Definition bind {W A B} (m : M W A) (f : A -> M W B) : M W B :=
  fun w =>
    match m w with
    | (Returns a, w') => f a w'
    | (Raises e, w') => (Raises e, w')
    end.
Definition query {W A} (q : W -> outcome A) : M W A := fun w => (q w, w).
Definition command {W A} (c : W -> outcome A * W) : M W A := c.

Notation "x <- m ;; f" := (bind m (fun x => f))
  (at level 100, m at level 99, f at level 200, right associativity).

(** [try: m  except C1 as e: h1 e  except C2 as e: h2 e ...]: the first
    clause whose classes hold the exception handles it; an exception no
    clause holds goes on. *)
Fixpoint handle {W A} (clauses : list ((Exception -> bool) * (Exception -> M W A)))
    (e : Exception) : M W A :=
  match clauses with
  | [] => fun w => (Raises e, w)
  | (catches, handler) :: rest =>
      if catches e then handler e else handle rest e
  end.

Definition try_except {W A} (m : M W A)
    (clauses : list ((Exception -> bool) * (Exception -> M W A))) : M W A :=
  fun w =>
    match m w with
    | (Returns a, w') => (Returns a, w')
    | (Raises e, w') => handle clauses e w'
    end.

(** [except Exception]. *)
Definition any_Exception (e : Exception) : bool := true.

(** [str.lower] on one code point, for the code points whose lower case
    holds an ASCII character; every other code point stands for its own
    lower case (compare [upper_char]). *)
Definition lower_char (c : N) : str :=
  if is_upper_ascii c then [c + 32]
  else if c =? 0x130 then [0x69; 0x307]
  else if c =? 0x212A then [0x6B]
  else [c].

Definition lower (s : str) : str := concat (map lower_char s).

(** [s.endswith(suf)]. *)
Definition endswith (s suf : str) : bool :=
  bool_decide (drop (length s - length suf)%nat s = suf).

Definition status_key : str := py "status".
Definition message_key : str := py "message".
Definition extracted_files_key : str := py "extracted_files".
Definition extract_dir_key : str := py "extract_dir".
Definition success : str := py "success".
Definition error : str := py "error".

Section Unzip.

Context {W : Type} (os : OS W).

(** The body of the loop of [_get_file_list] for one path. *)
Definition file_info (path : str) : M W FileInfo :=
  d <- query (is_dir os path) ;;
  f <- query (is_file os path) ;;
  size <- (if f then query (stat_size os path) else ret 0) ;;
  absolute_path_str <- query (resolve os path) ;;
  ret {| file_path := absolute_path_str;
         file_type := if d then py "directory" else py "file";
         file_size := size |}.

(** The loop of [_get_file_list]: a path whose body raises is left out
    (both [except] clauses of the body only print). *)
Fixpoint file_infos (paths : list str) (w : W) : list FileInfo * W :=
  match paths with
  | [] => ([], w)
  | path :: rest =>
      match file_info path w with
      | (Returns info, w') =>
          let '(infos, w'') := file_infos rest w' in (info :: infos, w'')
      | (Raises _, w') => file_infos rest w'
      end
  end.

(** An exception of the iteration ends the loop; the outer [except] only
    prints, and what was collected is returned. *)
Definition _get_file_list (directory : str) : M W (list FileInfo) :=
  fun w =>
    let '(infos, w') := file_infos (rglob os directory w) w in
    (Returns infos, w').

Definition _extract_archive (archive_path extract_to : str)
    : M W (bool * option str) :=
  let archive_path_lower := lower archive_path in
  try_except
    (z <- query (is_zipfile os archive_path) ;;
     if z then
       _ <- command (zip_extractall os archive_path extract_to) ;;
       ret (true, None)
     else
     t <- query (is_tarfile os archive_path) ;;
     if t then
       _ <- command (tar_extractall os archive_path extract_to) ;;
       ret (true, None)
     else if endswith archive_path_lower (py ".gz")
             && negb (endswith archive_path_lower (py ".tar.gz")) then
       let output_path := joinpath os extract_to (stem os archive_path) in
       _ <- command (gzip_copy os archive_path output_path) ;;
       ret (true, None)
     else if endswith archive_path_lower (py ".bz2")
             && negb (endswith archive_path_lower (py ".tar.bz2")) then
       let output_path := joinpath os extract_to (stem os archive_path) in
       _ <- command (bz2_copy os archive_path output_path) ;;
       ret (true, None)
     else if endswith archive_path_lower (py ".xz")
             && negb (endswith archive_path_lower (py ".tar.xz")) then
       let output_path := joinpath os extract_to (stem os archive_path) in
       _ <- command (lzma_copy os archive_path output_path) ;;
       ret (true, None)
     else
       try_except
         (_ <- command (tar_extractall os archive_path extract_to) ;;
          ret (true, None))
         [ (is_TarError,
            fun _ =>
              ret (false,
                   Some (py "Unsupported or corrupted archive format: "
                         ++ archive_path)));
           (any_Exception,
            fun fallback_e =>
              ret (false,
                   Some (py "Extraction failed during fallback attempt: "
                         ++ exception_text fallback_e))) ])
    [ (is_archive_error,
       fun archive_err =>
         ret (false,
              Some (py "Extraction failed due to archive error: "
                    ++ exception_text archive_err)));
      (any_Exception,
       fun e =>
         ret (false,
              Some (py "Extraction failed due to unexpected error: "
                    ++ exception_text e))) ].

(** [f"{error}"] for an [Optional[str]]. *)
Definition format_optional (error : option str) : str :=
  default (py "None") error.

Definition unzip_file (file_path : str) : M W Response :=
  fun w0 =>
  match environ_get os (py "UNZIP_PATH") w0 with
  | None | Some [] =>
      ret [(status_key, Text error); (extracted_files_key, Files []);
           (message_key,
            Text (py "Error: UNZIP_PATH environment variable is not set."))] w0
  | Some unzip_base_path =>
     (p_file_path <- query (resolve os file_path) ;;
      present <- query (path_exists os p_file_path) ;;
      if negb present then
        ret [(status_key, Text error); (extracted_files_key, Files []);
             (message_key,
              Text (py "Error: The file " ++ file_path ++ py " does not exist."))]
      else
      regular <- query (is_file os p_file_path) ;;
      if negb regular then
        ret [(status_key, Text error); (extracted_files_key, Files []);
             (message_key,
              Text (py "Error: " ++ file_path ++ py " is not a file."))]
      else
      let file_name_stem := stem os p_file_path in
      let file_name_stem :=
        if endswith (lower file_name_stem) (py ".tar")
        then stem os file_name_stem else file_name_stem in
      base <- query (resolve os unzip_base_path) ;;
      let extract_dir_str := joinpath os base file_name_stem in
      dir_present <- query (path_exists os extract_dir_str) ;;
      dir_is_dir <- (if dir_present then query (is_dir os extract_dir_str)
                     else ret false) ;;
      filled <- (if dir_present && dir_is_dir
                 then query (iterdir_any os extract_dir_str) else ret false) ;;
      if dir_present && dir_is_dir && filled then
        extracted_files_list <- _get_file_list extract_dir_str ;;
        ret [(status_key, Text success);
             (extract_dir_key, Text extract_dir_str);
             (extracted_files_key, Files extracted_files_list);
             (message_key,
              Text (py "Archive '" ++ file_path
                    ++ py "' appears to be already extracted to '"
                    ++ extract_dir_str ++ py "'."))]
      else
      bind (try_except
        (_ <- command (mkdir os extract_dir_str) ;; ret None)
        [ (is_OSError,
           fun mkdir_err =>
             ret (Some
               [(status_key, Text error); (extracted_files_key, Files []);
                (message_key,
                 Text (py "Error creating extraction directory '"
                       ++ extract_dir_str ++ py "': "
                       ++ exception_text mkdir_err))])) ]
      ) (fun early =>
      match early with
      | Some response => ret response
      | None =>
      result <- _extract_archive p_file_path extract_dir_str ;;
      let '(ok, err) := result in
      if negb ok then
        _ <- try_except
          (still <- query (path_exists os extract_dir_str) ;;
           if still then command (rmtree os extract_dir_str) else ret tt)
          [ (any_Exception, fun cleanup_err => ret tt) ] ;;
        ret [(status_key, Text error); (extracted_files_key, Files []);
             (message_key,
              Text (py "Failed to extract " ++ file_path ++ py ": "
                    ++ format_optional err))]
      else
      extracted_files_list <- _get_file_list extract_dir_str ;;
      ret [(status_key, Text success);
           (extract_dir_key, Text extract_dir_str);
           (extracted_files_key, Files extracted_files_list);
           (message_key,
            Text (py "Successfully extracted " ++ file_path ++ py " to "
                  ++ extract_dir_str ++ py ". Found "
                  ++ py (pretty (length extracted_files_list))
                  ++ py " items."))]
      end)) w0
  end.

End Unzip.

(** ** The properties in the words of the specification

    Definitions that follow the specification rather than the code, to be
    compared with the code in Part II. *)

(** [m] is [lit] up to the case of its letters. *)
Definition ci_equal (lit m : str) : Prop :=
  Forall2 (fun p c => literal_ignorecase p c = true) lit m.

Definition all_spaces (ws : str) : Prop := Forall (fun c => isspace c = true) ws.

(** The marker of sections 4.5 and 6: [<consensus_reached/>] in
    self-closing form, or [<consensus_reached>...</consensus_reached>] in
    paired form, anywhere in the text and in any casing. *)
Definition marker_self_closing (text : str) : Prop :=
  exists pre m post,
    text = pre ++ m ++ post /\ ci_equal (py "<consensus_reached/>") m.

Definition marker_paired (text : str) : Prop :=
  exists pre o body c post,
    text = pre ++ o ++ body ++ c ++ post
    /\ ci_equal (py "<consensus_reached>") o
    /\ ci_equal (py "</consensus_reached>") c.

Definition consensus_marker (text : str) : Prop :=
  marker_self_closing text \/ marker_paired text.

(** What the pattern of [check_tag_presence] finds for the tag
    [consensus_reached]: [<consensus_reached] in any casing, followed
    either by white space, if any, and [/>], or by [>]. *)
Definition opening_or_self_closing_tag (text : str) : Prop :=
  exists pre t rest,
    text = pre ++ t ++ rest
    /\ ci_equal (py "<consensus_reached") t
    /\ ((exists ws post, rest = ws ++ py "/>" ++ post /\ all_spaces ws)
        \/ (exists post, rest = py ">" ++ post)).

(** The coordinator's latest message, as the session holds it. *)
Definition coordinator_message (state : dict) : str :=
  dict_get_default Coordinator_message [] state.

(** The escalation signal of a list of events. *)
Definition escalation (events : list Event) : bool :=
  existsb escalate events.


(** ** Notions the statements of Part II use *)

(** The agents of a group chat: the working group, then the coordinator. *)
Definition agents_of (coordinator_agent : LlmAgent) (group_agents : list LlmAgent)
    : list LlmAgent :=
  group_agents ++ [coordinator_agent].

(** The last message an agent produced up to round [i], that round
    included. *)
Fixpoint latest_reply (a : LlmAgent) (i : nat) : option str :=
  match reply a i with
  | Some message => Some message
  | None =>
      match i with
      | O => None
      | S j => latest_reply a j
      end
  end.

(** The session after the agents of a round wrote their messages. *)
Definition after_agents (agents : list LlmAgent) (i : nat) (state : dict) : dict :=
  fold_left
    (fun s a =>
       match reply a i with
       | Some message => dict_set (output_key a) message s
       | None => s
       end)
    agents state.

(** The session after a whole round of the group chat. *)
Definition after_round (coordinator_agent : LlmAgent)
    (group_agents : list LlmAgent) (i : nat) (state : dict) : dict :=
  let state' := after_agents (agents_of coordinator_agent group_agents) i state in
  dict_set chat_history (updated_chat_history state') state'.

(** The transcript a session holds. *)
Definition transcript (state : dict) : str :=
  dict_get_default chat_history [] state.

(** The keys of a dictionary. *)
Definition keys (d : dict) : list str := map fst d.

(** The session after [i] rounds of the group chat, were the loop never
    stopped. *)
Fixpoint session_after (coordinator_agent : LlmAgent)
    (group_agents : list LlmAgent) (state : dict) (i : nat) : dict :=
  match i with
  | O => state
  | S j =>
      after_round coordinator_agent group_agents j
        (session_after coordinator_agent group_agents state j)
  end.

(** ** Sample agents and sessions *)

(** A participant that speaks in round 0 and is silent afterwards. *)
Definition Researcher_Alice : LlmAgent :=
  {| agent_name := py "Researcher_Alice";
     output_key := py "Researcher_Alice_message";
     reply := fun i => match i with
                       | O => Some (py "I found 42.")
                       | S _ => None
                       end |}.

(** A participant that speaks in every round. *)
Definition Researcher_Bob : LlmAgent :=
  {| agent_name := py "Researcher_Bob";
     output_key := py "Researcher_Bob_message";
     reply := fun _ => Some (py "I agree.") |}.

(** A participant that never produces a message. *)
Definition Browser_Frank : LlmAgent :=
  {| agent_name := py "Browser_Frank";
     output_key := py "Browser_Frank_message";
     reply := fun _ => None |}.

(** A coordinator that signals consensus in round 1. *)
Definition Coordinator_round_1 : LlmAgent :=
  {| agent_name := py "Coordinator";
     output_key := Coordinator_message;
     reply := fun i => match i with
                       | 1%nat => Some (py "Agreed. <consensus_reached/>")
                       | _ => Some (py "Please go on.")
                       end |}.

(** A coordinator that never signals consensus. *)
Definition Coordinator_undecided : LlmAgent :=
  {| agent_name := py "Coordinator";
     output_key := Coordinator_message;
     reply := fun _ => Some (py "Please go on.") |}.


(** A coordinator that signals consensus at once, but whose output key is
    not the one the check reads. *)
Definition Coordinator_other_key : LlmAgent :=
  {| agent_name := py "Moderator";
     output_key := py "Moderator_message";
     reply := fun _ => Some (py "Agreed. <consensus_reached/>") |}.

(** A coordinator that signals consensus in round 1, with the marker in
    mixed case. *)
Definition Coordinator_mixed_case : LlmAgent :=
  {| agent_name := py "Coordinator";
     output_key := Coordinator_message;
     reply := fun i => match i with
                       | 1%nat => Some (py "Agreed. <Consensus_Reached/>")
                       | _ => Some (py "Please go on.")
                       end |}.

(** A participant whose output key is the key the consensus check reads. *)
Definition Deputy : LlmAgent :=
  {| agent_name := py "Deputy";
     output_key := Coordinator_message;
     reply := fun _ => Some (py "Done. <consensus_reached/>") |}.


(** A participant whose output key is the key of the transcript. *)
Definition Scribe : LlmAgent :=
  {| agent_name := py "Scribe";
     output_key := chat_history;
     reply := fun i => match i with
                       | O => Some (py "Notes of round 0.")
                       | S _ => Some (py "Later notes.")
                       end |}.

(** ** C2 in the words of the specification *)

(** "If the coordinator's message contains the marker (any casing,
    self-closing or paired), the Round Controller transitions to
    [CONSENSUS_REACHED] and performs no further rounds": whenever, in a
    round that is executed, the coordinator produces a message that holds
    the marker, the controller is in [CONSENSUS_REACHED] after that round
    and the run stays as that round left it.  Stated for the runs in which
    no step fails. *)
Definition marker_ends_the_loop (coordinator_agent : LlmAgent)
    (group_agents : list LlmAgent) (max_iterations : nat) (state : dict) : Prop :=
  let loop :=
    get_group_chat_agent (py "GAIA_Team") [] coordinator_agent group_agents
      max_iterations in
  forall i message,
    task_controller (task_run loop never_throws state i) = Some (RUNNING i) ->
    reply coordinator_agent i = Some message ->
    consensus_marker message ->
    task_controller (task_run loop never_throws state (S i))
    = Some CONSENSUS_REACHED
    /\ forall k, (S i <= k)%nat ->
         task_run loop never_throws state k
         = task_run loop never_throws state (S i).

(** ** C3 in the words of the specification *)


(** ** C9 in the words of the specification *)

(** "For every group chat built with a coordinator agent whose output key
    is any other string, the detector always evaluates the empty string,
    the escalation signal is never raised".  Stated for the runs in which
    no step fails. *)
Definition other_key_never_escalates (coordinator_agent : LlmAgent)
    (group_agents : list LlmAgent) (max_iterations : nat) (state : dict) : Prop :=
  let loop :=
    get_group_chat_agent (py "GAIA_Team") [] coordinator_agent group_agents
      max_iterations in
  output_key coordinator_agent <> Coordinator_message ->
  forall k,
    coordinator_message (task_session (task_run loop never_throws state k)) = []
    /\ task_controller (task_run loop never_throws state k)
       <> Some CONSENSUS_REACHED.

(** ** C4 in the words of the specification *)

(** "For all rounds i, [chat_history] after round i is a strict superset
    (as an ordered append) of [chat_history] after round i-1": the
    transcript after a round starts with the transcript before it. *)
Definition append_only_across_rounds (coordinator_agent : LlmAgent)
    (group_agents : list LlmAgent) (max_iterations : nat) (state : dict) : Prop :=
  let loop :=
    get_group_chat_agent (py "GAIA_Team") [] coordinator_agent group_agents
      max_iterations in
  forall i,
    transcript (session (run loop state i))
    `prefix_of` transcript (session (run loop state (S i))).

(** ** C5 in the words of the specification, and in those of the code *)

(** The identity under which the transcript lists an agent: the name its
    output key yields. *)
Definition identity (a : LlmAgent) : option str :=
  name_pattern_match (output_key a).

(** The [{identity: message}] pairs produced in round [i]. *)
Definition produced_in_round (agents : list LlmAgent) (i : nat)
    : list (str * str) :=
  omap (fun a => name ← identity a; message ← reply a i; Some (name, message))
    agents.

(** The pairs of identity and latest message up to round [i]. *)
Definition latest_messages (agents : list LlmAgent) (i : nat)
    : list (str * str) :=
  omap (fun a => name ← identity a; message ← latest_reply a i;
                 Some (name, message))
    agents.

(** The last message an agent produced before round [i]. *)
Definition latest_before (a : LlmAgent) (i : nat) : option str :=
  match i with
  | O => None
  | S j => latest_reply a j
  end.

(** "For the round just completed, collect [{identity: message}] pairs for
    all produced outputs; append to [chat_history] one line per pair": in
    every executed round the update appends the entries of the pairs
    produced in that round, in some order. *)
Definition folds_messages_of_the_round (coordinator_agent : LlmAgent)
    (group_agents : list LlmAgent) (max_iterations : nat) (state : dict) : Prop :=
  let loop :=
    get_group_chat_agent (py "GAIA_Team") [] coordinator_agent group_agents
      max_iterations in
  forall i,
    controller (run loop state i) = RUNNING i ->
    exists entries,
      entries ≡ₚ produced_in_round (agents_of coordinator_agent group_agents) i
      /\ transcript (session (run loop state (S i)))
         = transcript (session (run loop state i))
           ++ [newline] ++ join [newline] (map transcript_entry entries).

(** ** C6 in the words of the specification *)

(** The session after the transcript update ran on it. *)
Definition updated (name : str) (state : dict) : dict :=
  fst (deliver (_UpdateChatHistory name state) state).

(** What an update appends for the messages of a session: a line feed and
    their entries. *)
Definition new_entries (state : dict) : str :=
  [newline] ++ join [newline] (map transcript_entry (new_messages state)).

(** "Running the fold twice on the same input snapshot (without re-invoking
    agents) produces the same multiset of new entries appended once, not
    twice": after a second run of the update, with no agent run in
    between, the transcript is the one the first run left. *)
Definition appended_once_not_twice (name : str) (state : dict) : Prop :=
  transcript (updated name (updated name state))
  = transcript (updated name state).

(** ** Invariants of the session *)

(** The transcript pair of a session item whose key is a message slot. *)
Definition named (kv : str * str) : option (str * str) :=
  name ← name_pattern_match kv.1; Some (name, kv.2).

(** Before round [i] the session is a dictionary whose keys hold no line
    feed, every agent's slot holds the last message the agent produced so
    far, and there is no other key but [chat_history]. *)
Definition slots_hold (agents : list LlmAgent) (i : nat) (state : dict) : Prop :=
  NoDup (keys state)
  /\ Forall (fun k => newline ∉ k) (keys state)
  /\ (forall a, a ∈ agents ->
        dict_get (output_key a) state = latest_before a i)
  /\ (forall k, k ∉ map output_key agents -> k <> chat_history ->
        dict_get k state = None).

(** The agents of a group chat have slots of their own: output keys that
    are pairwise different, hold no line feed and are not the key of the
    transcript. *)
Definition own_slots (agents : list LlmAgent) : Prop :=
  NoDup (map output_key agents)
  /\ Forall (fun a => newline ∉ output_key a) agents
  /\ Forall (fun a => output_key a <> chat_history) agents.

(** ** C7 in the words of the specification *)

(** "A response containing a line beginning with the prefix
    [FINAL ANSWER:] (case-insensitive) yields the stripped remainder of
    that line as the answer." *)
Definition answers_with_rest_of_line : Prop :=
  forall task_id response line prefix rest,
    line ∈ split_lines response ->
    line = prefix ++ rest ->
    ci_equal FINAL_ANSWER prefix ->
    task_result task_id response = Answered task_id (strip rest) response.

(** [FINAL ANSWER:] does not occur, in any casing, at a place of [before]
    in the text [before ++ rest]. *)
Definition no_final_answer_within (before rest : str) : Prop :=
  forall before1 before2,
    before = before1 ++ before2 -> before2 <> [] ->
    match_literal FINAL_ANSWER (before2 ++ rest) = None.

(** [no_final_answer_within], decided. *)
Fixpoint no_final_answer_withinb (before rest : str) : bool :=
  match before with
  | [] => true
  | _ :: before' =>
      negb (matches (match_literal FINAL_ANSWER (before ++ rest)))
      && no_final_answer_withinb before' rest
  end.

(** ** C8 in the words of the specification *)

(** The shape of what the tool returns: a [status] that is [success] or
    [error], a [message], and no extracted files with an error. *)
Definition response_contract (d : Response) : Prop :=
  (field status_key d = Some (Text success)
   \/ field status_key d = Some (Text error))
  /\ (exists m, field message_key d = Some (Text m))
  /\ (field status_key d = Some (Text error) ->
      field extracted_files_key d = Some (Files [])).

(** "For every input, [unzip_file] returns (never raises to the caller) a
    dictionary" of that shape. *)
Definition always_returns_response : Prop :=
  forall (W : Type) (os : OS W) (file_path : str) (w : W),
    exists d w', unzip_file os file_path w = (Returns d, w')
                 /\ response_contract d.




(** A sample world: [/data/a.zip] is a zip archive, [UNZIP_PATH] is
    [/tmp/out], and the extraction directory [/tmp/out/a] is absent or, with
    [extracted], present; [readable] tells whether it can be listed. *)
Definition sample_os (extracted readable : bool) : OS unit :=
  {| environ_get := fun k _ =>
       if decide (k = py "UNZIP_PATH") then Some (py "/tmp/out") else None;
     resolve := fun p _ => Returns p;
     path_exists := fun p _ =>
       Returns (bool_decide (p = py "/data/a.zip")
                || (extracted && bool_decide (p = py "/tmp/out/a")));
     is_file := fun p _ =>
       Returns (bool_decide (p = py "/data/a.zip")
                || bool_decide (p = py "/tmp/out/a/x.txt"));
     is_dir := fun p _ => Returns (bool_decide (p = py "/tmp/out/a"));
     stat_size := fun _ _ => Returns 3;
     iterdir_any := fun p _ =>
       if readable then Returns true
       else Raises {| exception_class := OSError;
                      exception_text :=
                        py "[Errno 13] Permission denied: '/tmp/out/a'" |};
     rglob := fun _ _ => [py "/tmp/out/a/x.txt"];
     is_zipfile := fun _ _ => Returns true;
     is_tarfile := fun _ _ => Returns false;
     stem := fun p => if decide (p = py "/data/a.zip") then py "a" else p;
     joinpath := fun p name => p ++ py "/" ++ name;
     mkdir := fun _ w => (Returns tt, w);
     rmtree := fun _ w => (Returns tt, w);
     zip_extractall := fun _ _ w => (Returns tt, w);
     tar_extractall := fun _ _ w => (Returns tt, w);
     gzip_copy := fun _ _ w => (Returns tt, w);
     bz2_copy := fun _ _ w => (Returns tt, w);
     lzma_copy := fun _ _ w => (Returns tt, w) |}.

(** ** [utils.py]: [extract_tag_content] *)

(** The lazy group [(.*?)] followed by the closing tag: the text before the
    first place at which [close] matches, and the text after that match. *)
Fixpoint find_closing (close text : str) : option (str * str) :=
  match match_literal close text with
  | Some rest => Some ([], rest)
  | None =>
      match text with
      | [] => None
      | c :: text' =>
          match find_closing close text' with
          | Some (body, rest) => Some (c :: body, rest)
          | None => None
          end
      end
  end.

(** One attempt of [<{tag}>(.*?)</{tag}>] at the head of [text], with
    [re.DOTALL] and [re.IGNORECASE]: group 1 and the text after the
    match. *)
Definition match_pair_here (tag text : str) : option (str * str) :=
  match match_literal (py "<" ++ tag ++ py ">") text with
  | Some rest => find_closing (py "</" ++ tag ++ py ">") rest
  | None => None
  end.

(** [re.findall]: the groups of the matches from left to right, each search
    starting where the previous match ended.  Every step uses up a
    character of the text at least, so [fuel] above its length is never
    used up. *)
Fixpoint findall_pairs (fuel : nat) (tag text : str) : list str :=
  match fuel with
  | O => []
  | S fuel' =>
      match match_pair_here tag text with
      | Some (body, rest) => body :: findall_pairs fuel' tag rest
      | None =>
          match text with
          | [] => []
          | _ :: text' => findall_pairs fuel' tag text'
          end
      end
  end.

(** [extract_tag_content], for a tag that stands for its own characters
    when it is pasted into the pattern: a tag of ASCII letters, digits and
    underscores ([word_tag] below), such as [consensus_reached].  The
    statements about this function are for such tags. *)
Definition extract_tag_content (text tag : str) : option str :=
  let all_matches := findall_pairs (S (length text)) tag text in
  match all_matches with
  | [] => None
  | _ :: _ => Some (strip (join [newline] (map strip all_matches)))
  end.

(** ** Notions the further statements use *)

(** [lit] does not match, in any casing, at a place of [before] in the text
    [before ++ rest]. *)
Definition no_match_within (lit before rest : str) : Prop :=
  forall before1 before2,
    before = before1 ++ before2 -> before2 <> [] ->
    match_literal lit (before2 ++ rest) = None.

(** [no_match_within], decided. *)
Fixpoint no_match_withinb (lit before rest : str) : bool :=
  match before with
  | [] => true
  | _ :: before' =>
      negb (matches (match_literal lit (before ++ rest)))
      && no_match_withinb lit before' rest
  end.

(** The text holds an opening tag and, after it, a closing tag, in any
    casing. *)
Definition has_pair (tag text : str) : Prop :=
  exists pre o body c post,
    text = pre ++ o ++ body ++ c ++ post
    /\ ci_equal (py "<" ++ tag ++ py ">") o
    /\ ci_equal (py "</" ++ tag ++ py ">") c.

(** A tag of ASCII letters, digits and underscores.  None of these is an
    operator of the pattern language, and under [re.IGNORECASE] their cases
    are what [literal_ignorecase] tells. *)
Definition is_word_char (c : N) : bool :=
  is_upper_ascii c || is_lower_ascii c || ((0x30 <=? c) && (c <=? 0x39))
  || (c =? 0x5F).

Definition word_tag (tag : str) : Prop :=
  Forall (fun c => is_word_char c = true) tag.

(** A text of ASCII characters. *)
Definition is_ascii (s : str) : Prop := Forall (fun c => c < 128) s.

(** The directory [unzip_file] extracts the file [p_file_path] to, under
    the resolved base directory: the stem of the file, and the stem of that
    stem when it ends with [.tar]. *)
Definition extraction_directory {W} (os : OS W) (p_file_path base : str) : str :=
  joinpath os base
    (if endswith (lower (stem os p_file_path)) (py ".tar")
     then stem os (stem os p_file_path) else stem os p_file_path).

(** The entry of the listing for a path, in terms of what the inspections
    of the path give in the world [w]: its resolved path, [directory] or
    [file] after [is_dir], and the size [stat] gives for a regular file, 0
    for anything else.  There is no entry when an inspection raises. *)
Definition listed_entry {W} (os : OS W) (w : W) (path : str) : option FileInfo :=
  match is_dir os path w, is_file os path w, resolve os path w with
  | Returns d, Returns f, Returns absolute_path_str =>
      match (if f then stat_size os path w else Returns 0) with
      | Returns size =>
          Some {| file_path := absolute_path_str;
                  file_type := if d then py "directory" else py "file";
                  file_size := size |}
      | Raises _ => None
      end
  | _, _, _ => None
  end.

(** The dictionary of an error return. *)
Definition error_response (message : str) : Response :=
  [(status_key, Text error); (extracted_files_key, Files []);
   (message_key, Text message)].

(** A sample world like [sample_os false true] whose archive is damaged:
    [extractall] raises [BadZipFile], and removing the extraction directory
    fails too.  The world counts the commands that ran. *)
Definition broken_archive_os : OS nat :=
  {| environ_get := fun k _ =>
       if decide (k = py "UNZIP_PATH") then Some (py "/tmp/out") else None;
     resolve := fun p _ => Returns p;
     path_exists := fun p w =>
       Returns (bool_decide (p = py "/data/a.zip")
                || (bool_decide (p = py "/tmp/out/a") && bool_decide (w <> 0%nat)));
     is_file := fun p _ => Returns (bool_decide (p = py "/data/a.zip"));
     is_dir := fun p _ => Returns (bool_decide (p = py "/tmp/out/a"));
     stat_size := fun _ _ => Returns 3;
     iterdir_any := fun _ _ => Returns false;
     rglob := fun _ _ => [];
     is_zipfile := fun _ _ => Returns true;
     is_tarfile := fun _ _ => Returns false;
     stem := fun p => if decide (p = py "/data/a.zip") then py "a" else p;
     joinpath := fun p name => p ++ py "/" ++ name;
     mkdir := fun _ w => (Returns tt, S w);
     rmtree := fun _ w =>
       (Raises {| exception_class := OSError;
                  exception_text := py "[Errno 13] Permission denied" |}, S w);
     zip_extractall := fun _ _ w =>
       (Raises {| exception_class := BadZipFile;
                  exception_text := py "File is not a zip file" |}, S w);
     tar_extractall := fun _ _ w => (Returns tt, S w);
     gzip_copy := fun _ _ w => (Returns tt, S w);
     bz2_copy := fun _ _ w => (Returns tt, S w);
     lzma_copy := fun _ _ w => (Returns tt, S w) |}.
(* ===================================================================== *)
(** * Part II: lemmas and theorems                                        *)
(* ===================================================================== *)

(** ** Text *)

Lemma match_literal_spec lit text rest :
  match_literal lit text = Some rest
  <-> exists m, text = m ++ rest /\ ci_equal lit m.
Proof.
  revert text. induction lit as [|p lit IH]; intros text; simpl.
  - split.
    + intros [= ->]. exists []. split; [done | constructor].
    + intros (m & -> & H). inversion H. done.
  - destruct text as [|c text].
    + split; [done |]. intros (m & Hm & H). inversion H; subst. done.
    + destruct (literal_ignorecase p c) eqn:E.
      * rewrite IH. split.
        -- intros (m & -> & H). exists (c :: m). split; [done |].
           by constructor.
        -- intros (m & Hm & H). inversion H; subst. simplify_eq/=.
           eauto.
      * split; [done |]. intros (m & Hm & H). inversion H; subst.
        simplify_eq/=. congruence.
Qed.

Lemma ci_equal_length lit m : ci_equal lit m -> length m = length lit.
Proof. intros H. symmetry. by eapply Forall2_length. Qed.

(** A pattern character that is no letter matches itself only. *)
Lemma literal_ignorecase_other p c :
  is_lower_ascii (ascii_lower p) = false ->
  literal_ignorecase p c = true -> c = p.
Proof.
  unfold literal_ignorecase. intros ->. by intros ?%N.eqb_eq.
Qed.

Lemma literal_ignorecase_refl p : literal_ignorecase p p = true.
Proof.
  unfold literal_ignorecase.
  destruct (is_lower_ascii (ascii_lower p)); [| apply N.eqb_refl].
  by rewrite N.eqb_refl.
Qed.

Lemma ci_equal_refl lit : ci_equal lit lit.
Proof. induction lit; constructor; auto using literal_ignorecase_refl. Qed.

Lemma ci_equal_app lit1 lit2 m :
  ci_equal (lit1 ++ lit2) m
  <-> exists m1 m2, m = m1 ++ m2 /\ ci_equal lit1 m1 /\ ci_equal lit2 m2.
Proof.
  unfold ci_equal. split.
  - intros (m1 & m2 & H1 & H2 & ->)%Forall2_app_inv_l. eauto.
  - intros (m1 & m2 & -> & H1 & H2). by apply Forall2_app.
Qed.

Lemma skip_spaces_spec text :
  exists ws,
    text = ws ++ skip_spaces text /\ all_spaces ws
    /\ match skip_spaces text with
       | c :: _ => isspace c = false
       | [] => True
       end.
Proof.
  induction text as [|c text (ws & Hws & Hall & Hhd)]; simpl.
  - exists []. split; [done |]. split; [constructor | done].
  - destruct (isspace c) eqn:E.
    + exists (c :: ws). split; [simpl; by rewrite <- Hws |].
      split; [by constructor | done].
    + exists []. split; [done |]. split; [constructor | done].
Qed.

Lemma skip_spaces_app ws rest :
  all_spaces ws ->
  match rest with c :: _ => isspace c = false | [] => True end ->
  skip_spaces (ws ++ rest) = rest.
Proof.
  intros Hall Hhd. induction Hall as [|c ws Hc _ IH]; simpl.
  - destruct rest as [|c rest]; [done |]. simpl. by rewrite Hhd.
  - by rewrite Hc.
Qed.

Lemma ci_equal_no_letter lit m :
  Forall (fun p => is_lower_ascii (ascii_lower p) = false) lit ->
  ci_equal lit m -> m = lit.
Proof.
  intros Hlit H. induction H as [|p c lit m Hpc _ IH]; [done |].
  inversion Hlit; subst. f_equal; [| by apply IH].
  by apply literal_ignorecase_other.
Qed.

Lemma match_literal_no_letter lit text rest :
  Forall (fun p => is_lower_ascii (ascii_lower p) = false) lit ->
  match_literal lit text = Some rest <-> text = lit ++ rest.
Proof.
  intros Hlit. rewrite match_literal_spec. split.
  - intros (m & -> & H). by rewrite (ci_equal_no_letter lit m).
  - intros ->. exists lit. split; [done | apply ci_equal_refl].
Qed.

Lemma matches_Some m : matches m = true <-> exists rest, m = Some rest.
Proof. destruct m; simpl; split; eauto; try done. by intros [? ?]. Qed.

(** ** [check_tag_presence] *)

Lemma match_tag_here_spec text :
  match_tag_here consensus_reached text = true
  <-> exists t rest,
        text = t ++ rest
        /\ ci_equal (py "<consensus_reached") t
        /\ ((exists ws post, rest = ws ++ py "/>" ++ post /\ all_spaces ws)
            \/ (exists post, rest = py ">" ++ post)).
Proof.
  unfold match_tag_here.
  change (py "<" ++ consensus_reached) with (py "<consensus_reached").
  split.
  - destruct (match_literal _ text) as [rest|] eqn:E; [| done].
    apply match_literal_spec in E as (t & -> & Ht).
    intros [H|H]%orb_true_iff; apply matches_Some in H as [post H];
      apply match_literal_no_letter in H; try (by repeat constructor).
    + destruct (skip_spaces_spec rest) as (ws & Hrest & Hws & _).
      exists t, rest. split; [done |]. split; [done |]. left.
      exists ws, post. split; [| done]. by rewrite <- H.
    + exists t, rest. split; [done |]. split; [done |]. right. eauto.
  - intros (t & rest & -> & Ht & Hrest).
    assert (match_literal (py "<consensus_reached") (t ++ rest) = Some rest)
      as -> by (apply match_literal_spec; eauto).
    apply orb_true_iff.
    destruct Hrest as [(ws & post & -> & Hws) | (post & ->)].
    + left. rewrite skip_spaces_app; done.
    + right. done.
Qed.

Lemma search_tag_spec tag text :
  search_tag tag text = true
  <-> exists pre rest, text = pre ++ rest /\ match_tag_here tag rest = true.
Proof.
  induction text as [|c text IH]; cbn [search_tag].
  - rewrite orb_false_r. split.
    + intros H. by exists [], [].
    + intros (pre & rest & Heq & H).
      symmetry in Heq. apply app_eq_nil in Heq as [-> ->]. done.
  - rewrite orb_true_iff, IH. split.
    + intros [H | (pre & rest & -> & H)].
      * by exists [], (c :: text).
      * by exists (c :: pre), rest.
    + intros (pre & rest & Heq & H). destruct pre as [|c' pre].
      * left. simpl in Heq. by subst.
      * right. injection Heq as -> ->. eauto.
Qed.

Lemma check_tag_presence_spec text :
  check_tag_presence text consensus_reached = true
  <-> opening_or_self_closing_tag text.
Proof.
  unfold check_tag_presence, opening_or_self_closing_tag.
  rewrite search_tag_spec. split.
  - intros (pre & rest & -> & (t & rest' & -> & Ht & H)%match_tag_here_spec).
    eauto 10.
  - intros (pre & t & rest & -> & Ht & H). exists pre, (t ++ rest).
    split; [done |]. apply match_tag_here_spec. eauto.
Qed.

(** The marker of the specification is among what the pattern finds. *)
Lemma consensus_marker_detected text :
  consensus_marker text -> check_tag_presence text consensus_reached = true.
Proof.
  intros H. apply check_tag_presence_spec.
  destruct H as [(pre & m & post & -> & Hm)
                | (pre & o & body & c & post & -> & Ho & _)].
  - change (py "<consensus_reached/>")
      with (py "<consensus_reached" ++ py "/>") in Hm.
    apply ci_equal_app in Hm as (t & e & -> & Ht & He).
    apply ci_equal_no_letter in He as ->; [| by repeat constructor].
    exists pre, t, (py "/>" ++ post). split; [by rewrite <- app_assoc |].
    split; [done |]. left. exists [], post. split; [done | constructor].
  - change (py "<consensus_reached>")
      with (py "<consensus_reached" ++ py ">") in Ho.
    apply ci_equal_app in Ho as (t & e & -> & Ht & He).
    apply ci_equal_no_letter in He as ->; [| by repeat constructor].
    exists pre, t, (py ">" ++ body ++ c ++ post).
    split; [by rewrite <- !app_assoc |]. split; [done |]. right. eauto.
Qed.

(** Both forms of the marker take twenty characters at least. *)
Lemma consensus_marker_length text :
  consensus_marker text -> (20 <= length text)%nat.
Proof.
  intros [(pre & m & post & -> & Hm)
         | (pre & o & body & c & post & -> & Ho & Hc)].
  - apply ci_equal_length in Hm. rewrite !length_app, Hm. simpl. lia.
  - apply ci_equal_length in Ho, Hc.
    rewrite !length_app, Ho, Hc. simpl. lia.
Qed.

(** ** C1: the consensus detector *)

Lemma escalation_check name state :
  escalation (_CheckConsensusAndEscalate name state)
  = check_tag_presence (coordinator_message state) consensus_reached.
Proof. unfold escalation. simpl. apply orb_false_r. Qed.

(** C1, as amended.  The consensus check is a function of the coordinator's
    latest message alone.  It raises the escalation signal exactly when
    the message holds, in any casing, [<consensus_reached] followed by
    optional white space and [/>], or the opening tag [<consensus_reached>],
    whether a closing tag follows or not.  So it raises it for the marker
    of the specification in self-closing and in paired form, and it does
    not raise it when the message is absent or empty. *)
Theorem consensus_detector_spec name state :
  (escalation (_CheckConsensusAndEscalate name state) = true
   <-> opening_or_self_closing_tag (coordinator_message state))
  /\ (consensus_marker (coordinator_message state) ->
      escalation (_CheckConsensusAndEscalate name state) = true)
  /\ (dict_get Coordinator_message state = None
      \/ dict_get Coordinator_message state = Some [] ->
      escalation (_CheckConsensusAndEscalate name state) = false)
  /\ (forall name' state',
        coordinator_message state' = coordinator_message state ->
        escalation (_CheckConsensusAndEscalate name' state')
        = escalation (_CheckConsensusAndEscalate name state)).
Proof.
  rewrite escalation_check. repeat split.
  - apply check_tag_presence_spec.
  - apply check_tag_presence_spec.
  - apply consensus_marker_detected.
  - intros H. unfold coordinator_message, dict_get_default.
    by destruct H as [-> | ->].
  - intros name' state' H. by rewrite escalation_check, H.
Qed.

(** The detector at work on a session whose coordinator wrote the marker
    in paired form and mixed case, inside other text. *)
Lemma consensus_detector_spec_witness :
  escalation
    (_CheckConsensusAndEscalate (py "Check_Consensus")
       [(Coordinator_message,
         py "We agree. <Consensus_Reached>yes</CONSENSUS_REACHED> Bye.")])
  = true.
Proof.
  apply (proj1 (proj2 (consensus_detector_spec _ _))).
  right.
  exists (py "We agree. "), (py "<Consensus_Reached>"), (py "yes"),
    (py "</CONSENSUS_REACHED>"), (py " Bye.").
  split; [reflexivity |].
  split; repeat constructor.
Defined.

(** C1 as the specification states it fails: an opening tag that is never
    closed is neither the self-closing nor the paired marker, and the
    detector raises the signal for it. *)
Lemma consensus_detector_unclosed_tag :
  check_tag_presence (py "<consensus_reached>") consensus_reached = true
  /\ ~ consensus_marker (py "<consensus_reached>")
  /\ ~ (forall text,
          check_tag_presence text consensus_reached = true
          <-> consensus_marker text).
Proof.
  assert (~ consensus_marker (py "<consensus_reached>")) as Hno.
  { intros H%consensus_marker_length. simpl in H. lia. }
  split; [reflexivity |]. split; [done |].
  intros H. apply Hno, H. reflexivity.
Qed.

(** ** Dictionaries *)

Lemma dict_get_set k k' v d :
  dict_get k (dict_set k' v d) = if decide (k = k') then Some v else dict_get k d.
Proof.
  induction d as [|[k0 v0] d IH]; simpl.
  - by destruct (decide (k = k')).
  - destruct (decide (k' = k0)) as [-> | Hne]; simpl.
    + by destruct (decide (k = k0)).
    + destruct (decide (k = k0)) as [-> | Hne'].
      * by destruct (decide (k0 = k')) as [-> | _].
      * apply IH.
Qed.

Lemma dict_get_set_eq k v d : dict_get k (dict_set k v d) = Some v.
Proof. rewrite dict_get_set. by destruct (decide (k = k)). Qed.

Lemma dict_get_set_ne k k' v d :
  k <> k' -> dict_get k (dict_set k' v d) = dict_get k d.
Proof. intros H. rewrite dict_get_set. by destruct (decide (k = k')). Qed.

Lemma keys_dict_set k v d :
  keys (dict_set k v d) = if decide (k ∈ keys d) then keys d else keys d ++ [k].
Proof.
  unfold keys. induction d as [|[k0 v0] d IH]; simpl.
  - destruct (decide (k ∈ [])) as [H | _]; [| done]. by apply elem_of_nil in H.
  - destruct (decide (k = k0)) as [-> | Hne]; simpl.
    + destruct (decide (k0 ∈ k0 :: map fst d)) as [_ | H]; [done |].
      exfalso. apply H. left.
    + rewrite IH. destruct (decide (k ∈ map fst d)) as [Hin | Hnin].
      * destruct (decide (k ∈ k0 :: map fst d)) as [_ | H]; [done |].
        exfalso. apply H. by right.
      * destruct (decide (k ∈ k0 :: map fst d)) as [H | _]; [| done].
        apply elem_of_cons in H as [-> | H]; done.
Qed.

Lemma NoDup_keys_dict_set k v d : NoDup (keys d) -> NoDup (keys (dict_set k v d)).
Proof.
  intros H. rewrite keys_dict_set. destruct (decide (k ∈ keys d)); [done |].
  apply NoDup_app. split; [done |]. split.
  - intros x Hx ->%list_elem_of_singleton. done.
  - apply NoDup_singleton.
Qed.

Lemma dict_get_Some_elem k v d : dict_get k d = Some v -> (k, v) ∈ d.
Proof.
  induction d as [|[k0 v0] d IH]; simpl; [done |].
  destruct (decide (k = k0)) as [-> | Hne].
  - intros [= ->]. left.
  - intros H. right. by apply IH.
Qed.

Lemma elem_dict_get k v d : NoDup (keys d) -> (k, v) ∈ d -> dict_get k d = Some v.
Proof.
  unfold keys. induction d as [|[k0 v0] d IH]; simpl.
  - intros _ H. by apply elem_of_nil in H.
  - intros [Hk0 Hd]%NoDup_cons [Heq | H]%elem_of_cons.
    + injection Heq as <- <-. by destruct (decide (k = k)).
    + destruct (decide (k = k0)) as [-> | Hne]; [| by apply IH].
      exfalso. apply Hk0. apply list_elem_of_fmap. by exists (k0, v).
Qed.

(** ** One round of the group chat *)

Lemma after_agents_app agents1 agents2 i state :
  after_agents (agents1 ++ agents2) i state
  = after_agents agents2 i (after_agents agents1 i state).
Proof. apply fold_left_app. Qed.

Lemma deliver_llm_run agents i state :
  deliver (concat (map (fun a => llm_run a i) agents)) state
  = (after_agents agents i state, false).
Proof.
  revert state. induction agents as [|a agents IH]; intros state; [done |].
  cbn [map concat]. unfold llm_run at 1, after_agents. cbn [fold_left].
  destruct (reply a i) as [message|]; cbn; apply IH.
Qed.

Lemma run_sub_agents_group_chat name description coordinator group n i state :
  run_sub_agents
    (loop_sub_agents (get_group_chat_agent name description coordinator group n))
    i state
  = (after_round coordinator group i state,
     check_tag_presence
       (coordinator_message (after_round coordinator group i state))
       consensus_reached).
Proof.
  cbn [get_group_chat_agent loop_sub_agents run_sub_agents run_async].
  rewrite deliver_llm_run.
  pose proof (deliver_llm_run [coordinator] i (after_agents group i state)) as H.
  cbn [map concat] in H. rewrite app_nil_r in H. rewrite H. clear H.
  rewrite <- after_agents_app. fold (agents_of coordinator group).
  set (state' := after_agents (agents_of coordinator group) i state).
  cbn. fold (after_round coordinator group i state).
  unfold after_round. fold state'. cbn.
  by destruct (check_tag_presence _ _).
Qed.

(** ** The round controller *)

Section Rounds.

Variables (name description : str).
Variables (coordinator : LlmAgent) (group : list LlmAgent).
Variable (n : nat).
Variable (state : dict).

Let loop := get_group_chat_agent name description coordinator group n.

Lemma run_S k : run loop state (S k) = step loop (run loop state k).
Proof. reflexivity. Qed.

Lemma step_running r i :
  controller r = RUNNING i ->
  step loop r
  = {| controller :=
         if check_tag_presence
              (coordinator_message (after_round coordinator group i (session r)))
              consensus_reached
         then CONSENSUS_REACHED
         else if decide (S i = n) then EXHAUSTED else RUNNING (S i);
       session := after_round coordinator group i (session r);
       rounds_executed := S (rounds_executed r) |}.
Proof.
  intros H. unfold step. rewrite H. unfold loop.
  rewrite run_sub_agents_group_chat. reflexivity.
Qed.

Lemma step_terminal r :
  (forall i, controller r <> RUNNING i) -> step loop r = r.
Proof.
  intros H. unfold step.
  destruct (controller r) as [i| |]; [| done | done].
  exfalso. by apply (H i).
Qed.

(** While the controller is running, its round index counts the rounds
    executed. *)
Lemma run_counts k :
  match controller (run loop state k) with
  | RUNNING i => i = k /\ rounds_executed (run loop state k) = k
  | _ => (rounds_executed (run loop state k) <= k)%nat
  end.
Proof.
  induction k as [|k IH]; [done |].
  rewrite run_S. destruct (controller (run loop state k)) as [i| |] eqn:E.
  - destruct IH as [-> IH]. rewrite (step_running _ k E). cbn.
    destruct (check_tag_presence _ _); [lia |].
    destruct (decide (S k = n)); [lia | split; [done | lia]].
  - rewrite step_terminal; [rewrite E; lia | by rewrite E].
  - rewrite step_terminal; [rewrite E; lia | by rewrite E].
Qed.

Lemma run_terminal_stays k0 k :
  (forall i, controller (run loop state k0) <> RUNNING i) ->
  (k0 <= k)%nat -> run loop state k = run loop state k0.
Proof.
  intros H. induction 1 as [|k Hle IH]; [done |].
  rewrite run_S, IH. by apply step_terminal.
Qed.

(** The run as long as no round escalates and the bound is not reached. *)
Lemma run_running k :
  (forall j, (j < k)%nat ->
     check_tag_presence
       (coordinator_message (session (run loop state (S j))))
       consensus_reached = false) ->
  (forall j, (j < k)%nat -> S j <> n) ->
  run loop state k
  = {| controller := RUNNING k;
       session := session_after coordinator group state k;
       rounds_executed := k |}.
Proof.
  induction k as [|k IH]; intros Hcheck Hbound; [done |].
  pose proof (Hcheck k ltac:(lia)) as Hk. revert Hk.
  rewrite run_S, IH by (intros; auto with lia).
  rewrite (step_running _ k) by done. cbn [session rounds_executed].
  intros ->.
  destruct (decide (S k = n)) as [Heq | _]; [| done].
  by destruct (Hbound k ltac:(lia)).
Qed.

(** The round after which the bound is reached, when no round escalated. *)
Lemma run_exhausted m :
  S m = n ->
  (forall j, (j <= m)%nat ->
     check_tag_presence
       (coordinator_message (session (run loop state (S j))))
       consensus_reached = false) ->
  run loop state (S m)
  = {| controller := EXHAUSTED;
       session := session_after coordinator group state (S m);
       rounds_executed := S m |}.
Proof.
  intros En Hcheck.
  pose proof (Hcheck m ltac:(lia)) as Hm. revert Hm.
  rewrite run_S, run_running by (intros; auto with lia).
  rewrite (step_running _ m) by done. cbn [session rounds_executed].
  intros ->. by destruct (decide (S m = n)).
Qed.

(** The round in which the check raises the signal ends the run. *)
Lemma run_consensus i :
  controller (run loop state i) = RUNNING i ->
  check_tag_presence
    (coordinator_message (session (run loop state (S i))))
    consensus_reached = true ->
  controller (run loop state (S i)) = CONSENSUS_REACHED
  /\ rounds_executed (run loop state (S i)) = S i.
Proof.
  intros Hi. pose proof (run_counts i) as Hc. rewrite Hi in Hc.
  destruct Hc as [_ Hc]. rewrite run_S, (step_running _ i Hi).
  cbn [session controller rounds_executed]. intros ->. by rewrite Hc.
Qed.

(** While the controller is running, the bound is ahead. *)
Lemma run_running_below_bound k i :
  (1 <= n)%nat -> controller (run loop state k) = RUNNING i -> (i < n)%nat.
Proof.
  intros Hn. revert i. induction k as [|k IH]; intros i.
  - intros [= <-]. lia.
  - rewrite run_S. destruct (controller (run loop state k)) as [i0| |] eqn:E.
    + rewrite (step_running _ i0 E). cbn [controller].
      destruct (check_tag_presence _ _); [done |].
      destruct (decide (S i0 = n)); [done |].
      intros [= <-]. specialize (IH i0 eq_refl). lia.
    + rewrite step_terminal; [by rewrite E | by rewrite E].
    + rewrite step_terminal; [by rewrite E | by rewrite E].
Qed.

End Rounds.

(** ** What a round leaves untouched, and what it writes *)

Lemma dict_get_after_agents_other k agents i state :
  Forall (fun a => output_key a <> k) agents ->
  dict_get k (after_agents agents i state) = dict_get k state.
Proof.
  intros H. revert state.
  induction H as [|a agents Ha _ IH]; intros state; [done |].
  change (after_agents (a :: agents) i state)
    with (after_agents agents i
            (match reply a i with
             | Some message => dict_set (output_key a) message state
             | None => state
             end)).
  rewrite IH. destruct (reply a i); [| done].
  by apply dict_get_set_ne.
Qed.

Lemma dict_get_after_round_other k coordinator group i state :
  k <> chat_history ->
  Forall (fun a => output_key a <> k) (agents_of coordinator group) ->
  dict_get k (after_round coordinator group i state) = dict_get k state.
Proof.
  intros Hk H. unfold after_round.
  rewrite dict_get_set_ne by done. by apply dict_get_after_agents_other.
Qed.

Lemma transcript_after_round coordinator group i state :
  transcript (after_round coordinator group i state)
  = updated_chat_history
      (after_agents (agents_of coordinator group) i state).
Proof.
  unfold transcript, dict_get_default, after_round.
  by rewrite dict_get_set_eq.
Qed.

(** A coordinator whose output key is the key the check reads: its message
    of the round is what the check sees. *)
Lemma coordinator_message_after_round coordinator group i state message :
  output_key coordinator = Coordinator_message ->
  reply coordinator i = Some message ->
  coordinator_message (after_round coordinator group i state) = message.
Proof.
  intros Hkey Hreply. unfold coordinator_message, dict_get_default, after_round.
  rewrite dict_get_set_ne by done.
  unfold agents_of. rewrite after_agents_app.
  unfold after_agents at 1. cbn [fold_left]. rewrite Hreply, Hkey.
  by rewrite dict_get_set_eq.
Qed.

Lemma updated_chat_history_appends state :
  updated_chat_history state
  = transcript state ++ [newline]
    ++ join [newline] (map transcript_entry (new_messages state)).
Proof. unfold updated_chat_history. by rewrite <- app_assoc. Qed.

(** ** Task runs: rounds that may fail *)

Section TaskRuns.

Variables (name description : str).
Variables (coordinator : LlmAgent) (group : list LlmAgent).
Variable (n : nat).
Variable (throws : nat -> BaseAgent -> bool).
Variable (state : dict).

Local Abbreviation loop :=
  (get_group_chat_agent name description coordinator group n).

(** A round of the group chat in which no step throws is the round of
    [run_sub_agents]. *)
Lemma run_round_no_throw i s :
  no_step_throws throws loop i ->
  run_sub_agents_or_throw throws (loop_sub_agents loop) i s
  = (after_round coordinator group i s,
     if check_tag_presence
          (coordinator_message (after_round coordinator group i s))
          consensus_reached
     then Escalated else Completed).
Proof.
  intros H.
  cbn [get_group_chat_agent loop_sub_agents run_sub_agents_or_throw run_async].
  rewrite !H by (cbn [get_group_chat_agent loop_sub_agents];
                 repeat first [by left | right]).
  rewrite deliver_llm_run.
  pose proof (deliver_llm_run [coordinator] i (after_agents group i s)) as H'.
  cbn [map concat] in H'. rewrite app_nil_r in H'. rewrite H'. clear H'.
  rewrite <- after_agents_app. fold (agents_of coordinator group).
  set (s' := after_agents (agents_of coordinator group) i s).
  cbn. fold (after_round coordinator group i s).
  unfold after_round. fold s'. cbn.
  by destruct (check_tag_presence _ _).
Qed.

(** A round in which a step throws stops there: the session holds what
    the steps before it wrote, which is nothing under a key that no agent
    has for output key and that is not [chat_history]. *)
Lemma run_round_throw i s :
  ~ no_step_throws throws loop i ->
  exists partial,
    run_sub_agents_or_throw throws (loop_sub_agents loop) i s
    = (partial, Thrown)
    /\ (forall k,
          Forall (fun a => output_key a <> k) (agents_of coordinator group) ->
          k <> chat_history ->
          dict_get k partial = dict_get k s).
Proof.
  intros H.
  cbn [get_group_chat_agent loop_sub_agents run_sub_agents_or_throw run_async].
  destruct (throws i (ParallelAgent _ _ group)) eqn:E1.
  { by exists s. }
  rewrite deliver_llm_run.
  destruct (throws i (Llm coordinator)) eqn:E2.
  { eexists. split; [done |].
    intros k [Hk _]%Forall_app _. by apply dict_get_after_agents_other. }
  pose proof (deliver_llm_run [coordinator] i (after_agents group i s)) as H'.
  cbn [map concat] in H'. rewrite app_nil_r in H'. rewrite H'. clear H'.
  rewrite <- after_agents_app. fold (agents_of coordinator group).
  destruct (throws i (UpdateChatHistory _)) eqn:E3.
  { eexists. split; [done |].
    intros k Hk _. by apply dict_get_after_agents_other. }
  set (s' := after_agents (agents_of coordinator group) i s).
  cbn [_UpdateChatHistory deliver state_delta escalate dict_update fold_left
       fst snd].
  destruct (throws i (CheckConsensusAndEscalate _)) eqn:E4.
  { exists (after_round coordinator group i s). split; [done |].
    intros k Hk Hne. by apply dict_get_after_round_other. }
  exfalso. apply H. intros b Hb.
  cbn [get_group_chat_agent loop_sub_agents] in Hb.
  repeat (apply elem_of_cons in Hb as [-> | Hb]; [done |]).
  by apply elem_of_nil in Hb.
Qed.

Lemma task_run_S k :
  task_run loop throws state (S k)
  = task_step loop throws (task_run loop throws state k).
Proof. reflexivity. Qed.

Lemma task_step_no_throw r i :
  controller r = RUNNING i -> no_step_throws throws loop i ->
  task_step loop throws (InLoop r) = InLoop (step loop r).
Proof.
  intros H Hno. unfold task_step. rewrite H, run_round_no_throw by done.
  by destruct (check_tag_presence _ _).
Qed.

Lemma task_step_throw r i :
  controller r = RUNNING i -> ~ no_step_throws throws loop i ->
  exists partial,
    task_step loop throws (InLoop r) = TASK_ERROR i partial
    /\ (forall k,
          Forall (fun a => output_key a <> k) (agents_of coordinator group) ->
          k <> chat_history ->
          dict_get k partial = dict_get k (session r)).
Proof.
  intros H Hno.
  destruct (run_round_throw i (session r) Hno) as (partial & Heq & Hp).
  exists partial. split; [| done]. unfold task_step. by rewrite H, Heq.
Qed.

(** Whether a step of a round throws can be told. *)
Lemma no_step_throws_dec i :
  no_step_throws throws loop i \/ ~ no_step_throws throws loop i.
Proof.
  destruct (existsb (throws i) (loop_sub_agents loop)) eqn:E.
  - right. intros H. apply existsb_exists in E as (b & Hb & Hthrows).
    apply list_elem_of_In in Hb. by rewrite (H b Hb) in Hthrows.
  - left. intros b Hb. destruct (throws i b) eqn:Et; [| done].
    assert (existsb (throws i) (loop_sub_agents loop) = true) as E'
      by (apply existsb_exists; exists b; by rewrite <- list_elem_of_In).
    congruence.
Qed.

Lemma task_step_stays t :
  (forall i, task_controller t <> Some (RUNNING i)) ->
  task_step loop throws t = t.
Proof.
  intros H. destruct t as [r|]; [| done]. unfold task_step.
  destruct (controller r) as [i| |] eqn:E; [| done | done].
  exfalso. apply (H i). cbn. by rewrite E.
Qed.

(** A run that has ended, in a terminal state or with an error, stays as
    it is: no further round is executed. *)
Lemma task_run_stays k0 k :
  (forall i, task_controller (task_run loop throws state k0)
             <> Some (RUNNING i)) ->
  (k0 <= k)%nat ->
  task_run loop throws state k = task_run loop throws state k0.
Proof.
  intros H. induction 1 as [|k Hle IH]; [done |].
  rewrite task_run_S, IH. by apply task_step_stays.
Qed.

(** As long as no step throws in a round that is executed, the task run
    is the run of the round controller. *)
Lemma task_run_in_loop k :
  (forall j, (j < k)%nat ->
     controller (run loop state j) = RUNNING j ->
     no_step_throws throws loop j) ->
  task_run loop throws state k = InLoop (run loop state k).
Proof.
  induction k as [|k IH]; intros H; [done |].
  rewrite task_run_S, IH by (intros; apply H; [lia | done]).
  destruct (controller (run loop state k)) as [i| |] eqn:E.
  - pose proof (run_counts name description coordinator group n state k) as Hc.
    rewrite E in Hc. destruct Hc as [-> _].
    by rewrite (task_step_no_throw _ k E) by (apply H; [lia | done]).
  - rewrite task_step_stays by (intros i; cbn; by rewrite E).
    rewrite run_S, step_terminal; [done | by rewrite E].
  - rewrite task_step_stays by (intros i; cbn; by rewrite E).
    rewrite run_S, step_terminal; [done | by rewrite E].
Qed.

(** A task run in which no step throws in a round below the bound is the
    run of the round controller. *)
Lemma task_run_never_thrown k :
  (1 <= n)%nat -> (forall i, (i < n)%nat -> no_step_throws throws loop i) ->
  task_run loop throws state k = InLoop (run loop state k).
Proof.
  intros Hn H. apply task_run_in_loop. intros j _ E. apply H.
  by apply (run_running_below_bound name description coordinator group n
              state j j).
Qed.

(** A task run whose controller is running has executed every round so
    far, and no step has thrown in any. *)
Lemma task_run_running k i :
  task_controller (task_run loop throws state k) = Some (RUNNING i) ->
  i = k
  /\ task_run loop throws state k = InLoop (run loop state k)
  /\ forall j, (j < k)%nat -> no_step_throws throws loop j.
Proof.
  revert i. induction k as [|k IH]; intros i.
  - intros [= <-]. split; [done |]. split; [done |]. intros j Hj. lia.
  - rewrite task_run_S.
    destruct (task_run loop throws state k) as [r0|fr partial] eqn:E0;
      [| done].
    destruct (controller r0) as [i0| |] eqn:Ec.
    + destruct (IH i0) as (-> & [= ->] & Hno); [cbn; by rewrite Ec |].
      destruct (no_step_throws_dec k) as [Hk | Hk].
      * rewrite (task_step_no_throw _ k Ec Hk). cbn [task_controller].
        intros [= Hi].
        pose proof (run_counts name description coordinator group n state
                      (S k)) as Hc.
        rewrite run_S, Hi in Hc. destruct Hc as [-> _].
        split; [done |]. split; [done |].
        intros j Hj. destruct (decide (j = k)) as [-> | Hne]; [done |].
        apply Hno. lia.
      * destruct (task_step_throw _ k Ec Hk) as (partial & -> & _). done.
    + rewrite task_step_stays by (intros j; cbn; by rewrite Ec).
      cbn. by rewrite Ec.
    + rewrite task_step_stays by (intros j; cbn; by rewrite Ec).
      cbn. by rewrite Ec.
Qed.

End TaskRuns.

(** ** C2: consensus ends the loop *)

(** C2, as amended.  In every run of the round loop of a group chat whose
    coordinator has [Coordinator_message] for output key: when a round is
    executed in which no step fails and the coordinator produces a message
    that holds the consensus marker, in self-closing or in paired form and
    in any casing, that message is what the consensus check reads, the
    check raises the escalation signal, the controller is in
    [CONSENSUS_REACHED] after that round, and no round is executed after
    it: the run stays as that round left it. *)
Theorem consensus_ends_the_loop
    name description coordinator group n throws state i message :
  output_key coordinator = Coordinator_message ->
  task_controller
    (task_run (get_group_chat_agent name description coordinator group n)
       throws state i) = Some (RUNNING i) ->
  no_step_throws throws
    (get_group_chat_agent name description coordinator group n) i ->
  reply coordinator i = Some message ->
  consensus_marker message ->
  coordinator_message
    (task_session
       (task_run (get_group_chat_agent name description coordinator group n)
          throws state (S i))) = message
  /\ escalation
       (_CheckConsensusAndEscalate (py "Check_Consensus")
          (task_session
             (task_run (get_group_chat_agent name description coordinator group n)
                throws state (S i)))) = true
  /\ task_controller
       (task_run (get_group_chat_agent name description coordinator group n)
          throws state (S i)) = Some CONSENSUS_REACHED
  /\ rounds_completed
       (task_run (get_group_chat_agent name description coordinator group n)
          throws state (S i)) = S i
  /\ forall k, (S i <= k)%nat ->
       task_run (get_group_chat_agent name description coordinator group n)
         throws state k
       = task_run (get_group_chat_agent name description coordinator group n)
           throws state (S i).
Proof.
  intros Hkey Hrun Hthrow Hreply Hmarker.
  destruct (task_run_running name description coordinator group n throws
              state i i Hrun) as (_ & Heq & _).
  assert (controller
            (run (get_group_chat_agent name description coordinator group n)
               state i) = RUNNING i) as Hc
    by (rewrite Heq in Hrun; by injection Hrun).
  assert (task_run (get_group_chat_agent name description coordinator group n)
            throws state (S i)
          = InLoop
              (run (get_group_chat_agent name description coordinator group n)
                 state (S i))) as Hnext.
  { rewrite task_run_S, Heq.
    by rewrite (task_step_no_throw name description coordinator group n throws
                  _ i Hc Hthrow). }
  assert (coordinator_message
            (session
               (run (get_group_chat_agent name description coordinator group n)
                  state (S i))) = message) as Hmsg.
  { rewrite run_S, (step_running _ _ _ _ _ _ i Hc). cbn [session].
    by apply coordinator_message_after_round. }
  assert (check_tag_presence
            (coordinator_message
               (session
                  (run (get_group_chat_agent name description coordinator
                          group n) state (S i))))
            consensus_reached = true) as Hcheck
    by (rewrite Hmsg; by apply consensus_marker_detected).
  destruct (run_consensus name description coordinator group n state i Hc Hcheck)
    as [Hcr Hr].
  split; [by rewrite Hnext |].
  split; [by rewrite Hnext, escalation_check |].
  split; [rewrite Hnext; cbn [task_controller]; by rewrite Hcr |].
  split; [by rewrite Hnext |].
  intros k Hk. apply task_run_stays; [| done].
  intros j. rewrite Hnext. cbn [task_controller]. by rewrite Hcr.
Qed.

(** Round 1 of a run in which the coordinator writes the marker then, in
    mixed case. *)
Lemma consensus_ends_the_loop_witness :
  task_controller
    (task_run (get_group_chat_agent (py "GAIA_Team") [] Coordinator_mixed_case
                 [Researcher_Alice; Researcher_Bob] 5)
       never_throws (new_session None) 2)
  = Some CONSENSUS_REACHED
  /\ rounds_completed
       (task_run (get_group_chat_agent (py "GAIA_Team") [] Coordinator_mixed_case
                    [Researcher_Alice; Researcher_Bob] 5)
          never_throws (new_session None) 2)
     = 2%nat.
Proof.
  assert (consensus_marker (py "Agreed. <Consensus_Reached/>")) as Hmarker.
  { left. exists (py "Agreed. "), (py "<Consensus_Reached/>"), [].
    split; [reflexivity | repeat constructor]. }
  destruct
    (consensus_ends_the_loop (py "GAIA_Team") [] Coordinator_mixed_case
       [Researcher_Alice; Researcher_Bob] 5 never_throws (new_session None) 1
       (py "Agreed. <Consensus_Reached/>") eq_refl eq_refl
       ltac:(by intros b _) eq_refl Hmarker)
    as (_ & _ & Hc & Hr & _).
  by split.
Defined.

(** C2 as the specification states it fails: this coordinator writes the
    marker in round 0, under an output key of its own; the consensus check
    reads [Coordinator_message], the controller goes on with round 1, and
    the run ends in [EXHAUSTED]. *)
Lemma marker_under_another_key :
  reply Coordinator_other_key 0 = Some (py "Agreed. <consensus_reached/>")
  /\ task_controller
       (task_run (get_group_chat_agent (py "GAIA_Team") [] Coordinator_other_key
                    [Researcher_Alice; Researcher_Bob] 3)
          never_throws (new_session None) 1) = Some (RUNNING 1)
  /\ task_controller
       (task_run (get_group_chat_agent (py "GAIA_Team") [] Coordinator_other_key
                    [Researcher_Alice; Researcher_Bob] 3)
          never_throws (new_session None) 3) = Some EXHAUSTED
  /\ ~ marker_ends_the_loop Coordinator_other_key
         [Researcher_Alice; Researcher_Bob] 3 (new_session None).
Proof.
  split; [reflexivity |]. split; [by vm_compute |]. split; [by vm_compute |].
  intros H.
  destruct (H 0%nat (py "Agreed. <consensus_reached/>")) as [Hc _].
  - reflexivity.
  - reflexivity.
  - left. exists (py "Agreed. "), (py "<consensus_reached/>"), [].
    split; [reflexivity | apply ci_equal_refl].
  - vm_compute in Hc. discriminate Hc.
Qed.

(** ** C3: exhaustion of the iteration budget *)





(** ** C9: the key the consensus check reads *)

Lemma Coordinator_message_never_written name description coordinator group n state k :
  Forall (fun a => output_key a <> Coordinator_message)
    (agents_of coordinator group) ->
  dict_get Coordinator_message state = None ->
  dict_get Coordinator_message
    (session (run (get_group_chat_agent name description coordinator group n)
                state k)) = None.
Proof.
  intros Hkeys Hstart. induction k as [|k IH]; [done |].
  rewrite run_S.
  destruct (controller
              (run (get_group_chat_agent name description coordinator group n)
                 state k)) as [i| |] eqn:E.
  - rewrite (step_running _ _ _ _ _ _ i E). cbn [session].
    by rewrite dict_get_after_round_other.
  - rewrite step_terminal; [done | by rewrite E].
  - rewrite step_terminal; [done | by rewrite E].
Qed.

(** Whether a step throws or not, nothing is written under
    [Coordinator_message] and the controller never enters
    [CONSENSUS_REACHED]. *)
Lemma Coordinator_message_never_read
    name description coordinator group n throws state k :
  Forall (fun a => output_key a <> Coordinator_message)
    (agents_of coordinator group) ->
  dict_get Coordinator_message state = None ->
  dict_get Coordinator_message
    (task_session
       (task_run (get_group_chat_agent name description coordinator group n)
          throws state k)) = None
  /\ task_controller
       (task_run (get_group_chat_agent name description coordinator group n)
          throws state k) <> Some CONSENSUS_REACHED.
Proof.
  intros Hkeys Hstart.
  induction k as [|k [IHs IHc]]; [done |].
  rewrite task_run_S.
  destruct (task_run (get_group_chat_agent name description coordinator group n)
              throws state k) as [r|failed partial]; [| done].
  cbn [task_session task_controller] in IHs, IHc.
  destruct (controller r) as [i| |] eqn:E.
  - destruct (no_step_throws_dec name description coordinator group n throws i)
      as [Hno | Hthrown].
    + rewrite (task_step_no_throw name description coordinator group n throws
                 r i E Hno).
      cbn [task_session task_controller].
      rewrite (step_running _ _ _ _ _ _ i E). cbn [session controller].
      assert (dict_get Coordinator_message
                (after_round coordinator group i (session r)) = None) as Hnone
        by (by rewrite dict_get_after_round_other).
      split; [done |].
      unfold coordinator_message, dict_get_default. rewrite Hnone.
      change (check_tag_presence [] consensus_reached) with false.
      cbn match. by destruct (decide (S i = n)).
    + destruct (task_step_throw name description coordinator group n throws
                  r i E Hthrown) as (partial & -> & Hp).
      cbn [task_session task_controller].
      split; [by rewrite Hp | done].
  - rewrite task_step_stays by (intros j; cbn; by rewrite E).
    cbn [task_session task_controller]. by rewrite E.
  - rewrite task_step_stays by (intros j; cbn; by rewrite E).
    cbn [task_session task_controller]. by rewrite E.
Qed.

(** C9, as amended.  The consensus check reads the session key
    [Coordinator_message], with the empty text as default.  In a group
    chat whose coordinator has another output key, where neither a
    participant writes under that key nor the session starts with it, the
    check evaluates the empty text at every time of every run and never
    raises the escalation signal, and the controller is never in
    [CONSENSUS_REACHED].  So a run in which no step fails goes on round
    after round and, with [max_iterations] at least 1, ends in [EXHAUSTED]
    after exactly [max_iterations] rounds. *)
Theorem consensus_key_is_hardwired
    name description coordinator group n throws state :
  output_key coordinator <> Coordinator_message ->
  Forall (fun a => output_key a <> Coordinator_message) group ->
  dict_get Coordinator_message state = None ->
  forall k,
    coordinator_message
      (task_session
         (task_run (get_group_chat_agent name description coordinator group n)
            throws state k)) = []
    /\ escalation
         (_CheckConsensusAndEscalate (py "Check_Consensus")
            (task_session
               (task_run
                  (get_group_chat_agent name description coordinator group n)
                  throws state k))) = false
    /\ task_controller
         (task_run (get_group_chat_agent name description coordinator group n)
            throws state k) <> Some CONSENSUS_REACHED
    /\ ((1 <= n)%nat ->
        (forall i, (i < n)%nat ->
           no_step_throws throws
             (get_group_chat_agent name description coordinator group n) i) ->
        ((k < n)%nat ->
         task_controller
           (task_run (get_group_chat_agent name description coordinator group n)
              throws state k) = Some (RUNNING k))
        /\ ((n <= k)%nat ->
            task_controller
              (task_run
                 (get_group_chat_agent name description coordinator group n)
                 throws state k) = Some EXHAUSTED
            /\ rounds_completed
                 (task_run
                    (get_group_chat_agent name description coordinator group n)
                    throws state k) = n)).
Proof.
  intros Hc Hg Hstart.
  assert (Forall (fun a => output_key a <> Coordinator_message)
            (agents_of coordinator group)) as Hkeys.
  { apply Forall_app. split; [done |]. by constructor. }
  intros k.
  destruct (Coordinator_message_never_read name description coordinator group
              n throws state k Hkeys Hstart) as [Hnone Hnever].
  assert (coordinator_message
            (task_session
               (task_run
                  (get_group_chat_agent name description coordinator group n)
                  throws state k)) = []) as Hmsg
    by (unfold coordinator_message, dict_get_default; by rewrite Hnone).
  split; [done |]. split; [by rewrite escalation_check, Hmsg |].
  split; [done |].
  intros Hn Hthrows.
  rewrite (task_run_never_thrown name description coordinator group n throws
             state k Hn Hthrows).
  cbn [task_controller rounds_completed].
  assert (forall j,
            check_tag_presence
              (coordinator_message
                 (session
                    (run (get_group_chat_agent name description coordinator
                            group n) state j)))
              consensus_reached = false) as Hcheck.
  { intros j. unfold coordinator_message, dict_get_default.
    by rewrite Coordinator_message_never_written. }
  split.
  - intros Hk. rewrite run_running; [done | auto | intros; lia].
  - intros Hk.
    assert (exists m, S m = n) as [m Hm] by (exists (pred n); lia).
    pose proof (run_exhausted name description coordinator group n state m Hm
                  ltac:(auto)) as He.
    rewrite Hm in He.
    rewrite (run_terminal_stays name description coordinator group n state n k);
      [by rewrite He | | done].
    intros j. by rewrite He.
Qed.

(** A coordinator that writes the marker at once under another key: the
    run of three rounds ends in [EXHAUSTED]. *)
Lemma consensus_key_is_hardwired_witness :
  task_controller
    (task_run (get_group_chat_agent (py "GAIA_Team") [] Coordinator_other_key
                 [Researcher_Alice; Researcher_Bob] 3)
       never_throws (new_session None) 3)
  = Some EXHAUSTED.
Proof.
  pose proof
    (consensus_key_is_hardwired (py "GAIA_Team") [] Coordinator_other_key
       [Researcher_Alice; Researcher_Bob] 3 never_throws (new_session None))
    as H.
  destruct (H ltac:(done) ltac:(by repeat constructor) ltac:(done) 3%nat)
    as (_ & _ & _ & He).
  destruct He as [_ He]; [lia | by intros i _ b _ |].
  by destruct He as [He _]; [lia |].
Defined.

(** C9 as the specification states it fails: with a coordinator that has
    an output key of its own, the check still reads what anyone else left
    under [Coordinator_message].  A participant that writes the marker
    under that key, and a session that starts with it, both end the loop
    in [CONSENSUS_REACHED] after one round. *)
Lemma consensus_by_another_writer :
  task_controller
    (task_run (get_group_chat_agent (py "GAIA_Team") [] Coordinator_other_key
                 [Deputy] 3) never_throws (new_session None) 1)
  = Some CONSENSUS_REACHED
  /\ ~ other_key_never_escalates Coordinator_other_key [Deputy] 3
         (new_session None)
  /\ task_controller
       (task_run (get_group_chat_agent (py "GAIA_Team") [] Coordinator_other_key
                    [Researcher_Bob] 3) never_throws
          [(Coordinator_message, py "<consensus_reached/>")] 1)
     = Some CONSENSUS_REACHED
  /\ ~ other_key_never_escalates Coordinator_other_key [Researcher_Bob] 3
         [(Coordinator_message, py "<consensus_reached/>")].
Proof.
  split; [by vm_compute |]. split; [| split; [by vm_compute |]].
  - intros H. destruct (H ltac:(done) 1%nat) as [_ Hc].
    apply Hc. by vm_compute.
  - intros H. destruct (H ltac:(done) 1%nat) as [_ Hc].
    apply Hc. by vm_compute.
Qed.

(** ** C4: the transcript only grows *)

Lemma transcript_after_agents agents i state :
  Forall (fun a => output_key a <> chat_history) agents ->
  transcript (after_agents agents i state) = transcript state.
Proof.
  intros H. unfold transcript, dict_get_default.
  by rewrite dict_get_after_agents_other.
Qed.

(** The update itself: the new transcript is the one it read, a line feed
    and the entries of the fold. *)
(** C4, as amended.  In a group chat in which no agent has [chat_history]
    itself for output key, [chat_history] is append-only across rounds: the
    transcript after every transition of the controller has the transcript
    before it as a prefix; and when the transition executes a round, the
    transcript after the round is the transcript after the previous round,
    followed by a line feed and the entries the update of the round folds
    in, so nothing appended earlier is removed or rewritten. *)
Theorem chat_history_append_only name description coordinator group n state k :
  Forall (fun a => output_key a <> chat_history) (agents_of coordinator group) ->
  transcript
    (session (run (get_group_chat_agent name description coordinator group n)
                state k))
  `prefix_of`
  transcript
    (session (run (get_group_chat_agent name description coordinator group n)
                state (S k)))
  /\ (controller
        (run (get_group_chat_agent name description coordinator group n) state k)
      = RUNNING k ->
      exists entries,
        transcript
          (session
             (run (get_group_chat_agent name description coordinator group n)
                state (S k)))
        = transcript
            (session
               (run (get_group_chat_agent name description coordinator group n)
                  state k))
          ++ [newline] ++ join [newline] (map transcript_entry entries)).
Proof.
  intros Hkeys.
  assert (forall i,
            controller
              (run (get_group_chat_agent name description coordinator group n)
                 state k) = RUNNING i ->
            transcript
              (session
                 (run (get_group_chat_agent name description coordinator group n)
                    state (S k)))
            = transcript
                (session
                   (run (get_group_chat_agent name description coordinator
                           group n) state k))
              ++ [newline]
              ++ join [newline]
                   (map transcript_entry
                      (new_messages
                         (after_agents (agents_of coordinator group) i
                            (session
                               (run (get_group_chat_agent name description
                                       coordinator group n) state k))))))
    as Hround.
  { intros i E. rewrite run_S, (step_running _ _ _ _ _ _ i E). cbn [session].
    rewrite transcript_after_round, updated_chat_history_appends.
    by rewrite transcript_after_agents. }
  split.
  - destruct (controller
                (run (get_group_chat_agent name description coordinator group n)
                   state k)) as [i| |] eqn:E.
    + rewrite (Hround i eq_refl). by apply prefix_app_r.
    + rewrite run_S, step_terminal; [done | by rewrite E].
    + rewrite run_S, step_terminal; [done | by rewrite E].
  - intros E. eexists. by apply Hround.
Qed.

(** Three rounds of a run: the transcript after round 1 starts with the
    transcript after round 0. *)
Lemma chat_history_append_only_witness :
  transcript
    (session (run (get_group_chat_agent (py "GAIA_Team") [] Coordinator_undecided
                     [Researcher_Alice; Researcher_Bob] 3)
                (new_session (Some (py "[user]: How much is 6 times 7?"))) 1))
  `prefix_of`
  transcript
    (session (run (get_group_chat_agent (py "GAIA_Team") [] Coordinator_undecided
                     [Researcher_Alice; Researcher_Bob] 3)
                (new_session (Some (py "[user]: How much is 6 times 7?"))) 2)).
Proof.
  apply (chat_history_append_only (py "GAIA_Team") [] Coordinator_undecided
           [Researcher_Alice; Researcher_Bob] 3 _ 1).
  by repeat constructor.
Defined.

(** C4 as the specification states it fails: a participant whose output
    key is [chat_history] replaces the transcript with its message in every
    round, and the transcript after round 1 does not start with the
    transcript after round 0. *)
Lemma chat_history_overwritten :
  transcript
    (session (run (get_group_chat_agent (py "GAIA_Team") [] Coordinator_undecided
                     [Scribe] 3) (new_session None) 1))
  = py "Notes of round 0." ++ [newline]
    ++ py "[Coordinator]: Please go on." ++ [newline]
  /\ transcript
       (session (run (get_group_chat_agent (py "GAIA_Team") []
                        Coordinator_undecided [Scribe] 3) (new_session None) 2))
     = py "Later notes." ++ [newline]
       ++ py "[Coordinator]: Please go on." ++ [newline]
  /\ ~ append_only_across_rounds Coordinator_undecided [Scribe] 3
        (new_session None).
Proof.
  split; [by vm_compute |]. split; [by vm_compute |].
  intros H. specialize (H 1%nat).
  apply (bool_decide_pack _) in H. vm_compute in H. done.
Qed.

(** ** The transcript update run on a session *)

Lemma deliver_update name state :
  fst (deliver (_UpdateChatHistory name state) state)
  = dict_set chat_history (updated_chat_history state) state.
Proof. reflexivity. Qed.

Lemma transcript_dict_set text state :
  transcript (dict_set chat_history text state) = text.
Proof. unfold transcript, dict_get_default. by rewrite dict_get_set_eq. Qed.

(** An update run on the session a first update has left
    reads the new transcript and appends the entries to it again. *)
Lemma transcript_update_in_sequence name state :
  new_messages (fst (deliver (_UpdateChatHistory name state) state))
  = new_messages state ->
  transcript
    (fst (deliver
            (_UpdateChatHistory name
               (fst (deliver (_UpdateChatHistory name state) state)))
            (fst (deliver (_UpdateChatHistory name state) state))))
  = transcript state
    ++ ([newline] ++ join [newline] (map transcript_entry (new_messages state)))
    ++ ([newline] ++ join [newline] (map transcript_entry (new_messages state))).
Proof.
  intros Hsame. rewrite (deliver_update name (fst _)), transcript_dict_set.
  rewrite updated_chat_history_appends, Hsame.
  rewrite deliver_update, transcript_dict_set.
  rewrite updated_chat_history_appends. by rewrite <- !app_assoc.
Qed.

(** ** The naming convention of the message slots *)

Lemma remove_suffix_Some suf s t : remove_suffix suf s = Some t -> s = t ++ suf.
Proof.
  unfold remove_suffix.
  destruct (decide (drop (length s - length suf) s = suf)) as [H|]; [| done].
  intros [= <-].
  transitivity (take (length s - length suf) s ++ drop (length s - length suf) s).
  - symmetry. apply take_drop.
  - f_equal. exact H.
Qed.

Lemma slot_name_Some t n : slot_name t = Some n -> t = n.
Proof. unfold slot_name. destruct (decide _); [by intros [= ->] | done]. Qed.

(** A key without line feed that matches the pattern is its name followed
    by [_message]. *)
Lemma name_pattern_match_Some k n :
  name_pattern_match k = Some n -> newline ∉ k -> k = n ++ py "_message".
Proof.
  unfold name_pattern_match. intros H Hnl.
  destruct (remove_suffix (py "_message") k ≫= slot_name) as [n'|] eqn:E1.
  - injection H as ->.
    destruct (remove_suffix (py "_message") k) as [t|] eqn:E0; [| done].
    cbn [mbind option_bind] in E1. apply slot_name_Some in E1 as ->.
    by apply remove_suffix_Some.
  - destruct (remove_suffix (py "_message" ++ [newline]) k) as [t'|] eqn:E3;
      [| done].
    apply remove_suffix_Some in E3. exfalso. apply Hnl. rewrite E3.
    rewrite !elem_of_app. right. right. left.
Qed.

Lemma name_pattern_match_inj k k' n :
  name_pattern_match k = Some n -> name_pattern_match k' = Some n ->
  newline ∉ k -> newline ∉ k' -> k = k'.
Proof.
  intros H H' Hk Hk'.
  rewrite (name_pattern_match_Some k n), (name_pattern_match_Some k' n); done.
Qed.

Lemma name_pattern_match_chat_history : name_pattern_match chat_history = None.
Proof. reflexivity. Qed.

(** ** C6: the transcript update run twice *)

Lemma fold_messages_dict_set_chat_history text state acc :
  fold_left
    (fun acc kv =>
       match name_pattern_match kv.1 with
       | Some name => dict_set name kv.2 acc
       | None => acc
       end) (dict_set chat_history text state) acc
  = fold_left
      (fun acc kv =>
         match name_pattern_match kv.1 with
         | Some name => dict_set name kv.2 acc
         | None => acc
         end) state acc.
Proof.
  revert acc. induction state as [|[k0 v0] state IH]; intros acc.
  - cbn [dict_set fold_left fst]. by rewrite name_pattern_match_chat_history.
  - cbn [dict_set]. case_decide as Hk.
    + subst k0. cbn [fold_left fst].
      by rewrite name_pattern_match_chat_history.
    + cbn [fold_left fst snd]. apply IH.
Qed.

Lemma new_messages_updated name state :
  new_messages (updated name state) = new_messages state.
Proof.
  unfold updated. rewrite deliver_update.
  apply fold_messages_dict_set_chat_history.
Qed.

(** C6, as amended.  The transcript update is not idempotent.  Run a
    second time, on the session its first run left and with no agent run
    in between, it folds the same messages as the first time and appends
    their entries once more: the transcript then holds them twice, and is
    never the transcript the first run left. *)
Theorem transcript_update_appends_again name state :
  new_messages (updated name state) = new_messages state
  /\ transcript (updated name state) = transcript state ++ new_entries state
  /\ transcript (updated name (updated name state))
     = transcript state ++ new_entries state ++ new_entries state
  /\ ~ appended_once_not_twice name state.
Proof.
  assert (transcript (updated name state)
          = transcript state ++ new_entries state) as Honce.
  { unfold updated. rewrite deliver_update, transcript_dict_set.
    apply updated_chat_history_appends. }
  assert (transcript (updated name (updated name state))
          = transcript state ++ new_entries state ++ new_entries state)
    as Htwice.
  { pose proof (new_messages_updated name state) as Hsame.
    unfold updated in *.
    by rewrite (transcript_update_in_sequence name state Hsame). }
  split; [apply new_messages_updated |]. split; [exact Honce |].
  split; [exact Htwice |].
  unfold appended_once_not_twice. rewrite Htwice, Honce.
  intros H%(f_equal length). rewrite !length_app in H.
  unfold new_entries in H. cbn [app length] in H. lia.
Qed.

(** C6 as the specification states it fails: on a session that holds the
    question and one message, the second run of the update appends the
    entry of the message a second time. *)
Lemma transcript_update_appends_twice :
  transcript
    (updated (py "Update_Chat_History")
       (updated (py "Update_Chat_History")
          [(chat_history, py "[user]: How much is 6 times 7?" ++ [newline]);
           (py "Researcher_Bob_message", py "I agree.")]))
  = py "[user]: How much is 6 times 7?" ++ [newline]
    ++ [newline] ++ py "[Researcher_Bob]: I agree." ++ [newline]
    ++ [newline] ++ py "[Researcher_Bob]: I agree." ++ [newline]
  /\ ~ appended_once_not_twice (py "Update_Chat_History")
        [(chat_history, py "[user]: How much is 6 times 7?" ++ [newline]);
         (py "Researcher_Bob_message", py "I agree.")].
Proof.
  split; [by vm_compute |].
  unfold appended_once_not_twice. by vm_compute.
Qed.

(** ** The comprehension of the update *)

Lemma dict_set_fresh k v d : k ∉ keys d -> dict_set k v d = d ++ [(k, v)].
Proof.
  unfold keys. induction d as [|[k0 v0] d IH]; simpl; [done |].
  intros [Hne Hd]%not_elem_of_cons.
  destruct (decide (k = k0)); [done |]. by rewrite IH.
Qed.

Lemma fst_omap_named d :
  map fst (omap named d) = omap name_pattern_match (keys d).
Proof.
  unfold keys. induction d as [|[k v] d IH]; [done |]. cbn.
  unfold named at 1. cbn. destruct (name_pattern_match k); cbn; by rewrite IH.
Qed.

(** When the names the keys yield are pairwise different, the
    comprehension lists the slots in the order of the state. *)
Lemma new_messages_from acc d :
  NoDup (keys acc ++ omap name_pattern_match (keys d)) ->
  fold_left
    (fun acc kv =>
       match name_pattern_match kv.1 with
       | Some name => dict_set name kv.2 acc
       | None => acc
       end) d acc
  = acc ++ omap named d.
Proof.
  revert acc. induction d as [|[k v] d IH]; intros acc Hnd.
  - by rewrite app_nil_r.
  - cbn [fold_left omap list_omap fst snd]. unfold named at 1. cbn [fst snd].
    unfold keys in Hnd. cbn [map omap list_omap fst] in Hnd.
    destruct (name_pattern_match k) as [n|]; cbn [mbind option_bind] in *.
    + assert (n ∉ keys acc) as Hfresh.
      { apply NoDup_app in Hnd as (_ & Hnd & _). intros Hin.
        apply (Hnd n Hin). left. }
      rewrite dict_set_fresh by done. rewrite IH.
      * by rewrite <- app_assoc.
      * unfold keys. rewrite map_app, <- app_assoc. exact Hnd.
    + by apply IH.
Qed.

Lemma new_messages_omap d :
  NoDup (omap name_pattern_match (keys d)) -> new_messages d = omap named d.
Proof. intros H. unfold new_messages. by rewrite new_messages_from. Qed.

Lemma NoDup_names l :
  NoDup l -> Forall (fun k => newline ∉ k) l ->
  NoDup (omap name_pattern_match l).
Proof.
  induction 1 as [|k l Hk Hl IH]; intros Hnl; [constructor |].
  apply Forall_cons in Hnl as [Hnk Hnl]. cbn.
  destruct (name_pattern_match k) as [n|] eqn:E; [| by apply IH].
  constructor; [| by apply IH].
  intros (k' & Hk' & E')%list_elem_of_omap.
  apply Hk. rewrite (name_pattern_match_inj k k' n); try done.
  by eapply Forall_forall in Hnl.
Qed.

(** ** The message slots during a run *)

Lemma after_agents_cons a agents i state :
  after_agents (a :: agents) i state
  = after_agents agents i
      (match reply a i with
       | Some message => dict_set (output_key a) message state
       | None => state
       end).
Proof. reflexivity. Qed.

Lemma NoDup_keys_after_agents agents i state :
  NoDup (keys state) -> NoDup (keys (after_agents agents i state)).
Proof.
  revert state. induction agents as [|a agents IH]; intros state H; [done |].
  rewrite after_agents_cons. apply IH.
  destruct (reply a i); [by apply NoDup_keys_dict_set | done].
Qed.

Lemma Forall_keys_dict_set (P : str -> Prop) k v d :
  P k -> Forall P (keys d) -> Forall P (keys (dict_set k v d)).
Proof.
  intros Hk Hd. rewrite keys_dict_set. destruct (decide (k ∈ keys d)); [done |].
  apply Forall_app. split; [done |]. by constructor.
Qed.

Lemma Forall_keys_after_agents (P : str -> Prop) agents i state :
  Forall (fun a => P (output_key a)) agents ->
  Forall P (keys state) -> Forall P (keys (after_agents agents i state)).
Proof.
  intros H. revert state.
  induction H as [|a agents Ha _ IH]; intros state Hs; [done |].
  rewrite after_agents_cons. apply IH.
  destruct (reply a i); [by apply Forall_keys_dict_set | done].
Qed.

(** With output keys of their own, the slot of an agent holds its message
    of the round if it produced one, and what it held before otherwise. *)
Lemma dict_get_after_agents a agents i state :
  NoDup (map output_key agents) -> a ∈ agents ->
  dict_get (output_key a) (after_agents agents i state)
  = match reply a i with
    | Some message => Some message
    | None => dict_get (output_key a) state
    end.
Proof.
  revert state. induction agents as [|b agents IH]; intros state Hnd Hin.
  - by apply elem_of_nil in Hin.
  - cbn [map] in Hnd. apply NoDup_cons in Hnd as [Hb Hnd].
    rewrite after_agents_cons.
    apply elem_of_cons in Hin as [-> | Hin].
    + rewrite dict_get_after_agents_other.
      * destruct (reply b i); [apply dict_get_set_eq | done].
      * apply Forall_forall. intros c Hc Heq. apply Hb. rewrite <- Heq.
        apply list_elem_of_fmap. eauto.
    + rewrite IH by done. destruct (reply a i); [done |].
      destruct (reply b i); [| done]. apply dict_get_set_ne.
      intros Heq. apply Hb. rewrite <- Heq. apply list_elem_of_fmap. eauto.
Qed.

Lemma latest_reply_step a i :
  match reply a i with
  | Some message => Some message
  | None => latest_before a i
  end = latest_reply a i.
Proof. by destruct i. Qed.

Lemma slots_hold_new_session agents history :
  Forall (fun a => output_key a <> chat_history) agents ->
  slots_hold agents 0 (new_session history).
Proof.
  intros Hkeys. destruct history as [h|]; cbn [new_session].
  - split; [apply NoDup_singleton |].
    split; [constructor; [compute_done | constructor] |].
    split.
    + intros a Ha. cbn [dict_get latest_before].
      eapply Forall_forall in Hkeys; [| done].
      by destruct (decide (output_key a = chat_history)).
    + intros k _ Hk. cbn [dict_get].
      by destruct (decide (k = chat_history)).
  - split; [apply NoDup_nil_2 |]. split; [constructor |]. by split.
Qed.

Lemma slots_hold_after_round coordinator group i state :
  own_slots (agents_of coordinator group) ->
  slots_hold (agents_of coordinator group) i state ->
  slots_hold (agents_of coordinator group) (S i)
    (after_round coordinator group i state).
Proof.
  intros (Hnd & Hnl & Hch) (Hd & Hk & Hslot & Hother). unfold after_round.
  split; [by apply NoDup_keys_dict_set, NoDup_keys_after_agents |].
  split.
  { apply Forall_keys_dict_set; [compute_done |].
    apply (Forall_keys_after_agents (fun k => newline ∉ k)); done. }
  split.
  - intros a Ha. rewrite dict_get_set_ne.
    + rewrite dict_get_after_agents by done. rewrite Hslot by done.
      apply latest_reply_step.
    + by eapply Forall_forall in Hch.
  - intros k Hk' Hne. rewrite dict_get_set_ne by done.
    rewrite dict_get_after_agents_other; [by apply Hother |].
    apply Forall_forall. intros a Ha Heq. apply Hk'. rewrite <- Heq.
    apply list_elem_of_fmap. eauto.
Qed.

Lemma slots_hold_session_after coordinator group history i :
  own_slots (agents_of coordinator group) ->
  slots_hold (agents_of coordinator group) i
    (session_after coordinator group (new_session history) i).
Proof.
  intros Hown. induction i as [|i IH].
  - apply slots_hold_new_session. apply Hown.
  - cbn [session_after]. by apply slots_hold_after_round.
Qed.

Lemma omap_identity agents :
  omap identity agents = omap name_pattern_match (map output_key agents).
Proof.
  induction agents as [|a agents IH]; [done |]. cbn. unfold identity at 1.
  destruct (name_pattern_match (output_key a)); cbn; by rewrite IH.
Qed.

Lemma elem_of_latest_messages agents i name message :
  (name, message) ∈ latest_messages agents i
  <-> exists a, a ∈ agents /\ identity a = Some name
                /\ latest_reply a i = Some message.
Proof.
  unfold latest_messages. rewrite list_elem_of_omap. split.
  - intros (a & Ha & H). exists a. split; [done |].
    destruct (identity a) as [n'|]; [| done]. cbn in H.
    destruct (latest_reply a i) as [m'|]; [| done]. cbn in H.
    by injection H as -> ->.
  - intros (a & Ha & Hn & Hm). exists a. split; [done |].
    by rewrite Hn, Hm.
Qed.

Lemma NoDup_fst_latest_messages agents i :
  NoDup (omap identity agents) -> NoDup (map fst (latest_messages agents i)).
Proof.
  induction agents as [|a agents IH]; [constructor |].
  unfold latest_messages. cbn [omap list_omap].
  destruct (identity a) as [n|] eqn:En; cbn [mbind option_bind]; [| done].
  intros [Hn Hnd]%NoDup_cons.
  destruct (latest_reply a i) as [m|]; cbn [mbind option_bind]; [| by apply IH].
  cbn [map fst]. constructor; [| by apply IH].
  intros ((n' & m') & Heq & Hin)%list_elem_of_fmap. cbn in Heq. subst n'.
  apply elem_of_latest_messages in Hin as (b & Hb & Hid & _).
  apply Hn. apply list_elem_of_omap. eauto.
Qed.

(** After the agents of round [i] have written their messages, the
    comprehension of the update holds, for every agent that has produced a
    message so far, its identity with its latest message, once each. *)
Lemma new_messages_after_agents agents i state :
  own_slots agents -> slots_hold agents i state ->
  new_messages (after_agents agents i state) ≡ₚ latest_messages agents i
  /\ NoDup (map fst (new_messages (after_agents agents i state))).
Proof.
  intros (Hnd & Hnl & Hch) (Hd & Hk & Hslot & Hother).
  set (state' := after_agents agents i state).
  assert (NoDup (keys state')) as Hd'
    by by apply NoDup_keys_after_agents.
  assert (Forall (fun k => newline ∉ k) (keys state')) as Hk'
    by by apply (Forall_keys_after_agents (fun k => newline ∉ k)).
  assert (NoDup (omap name_pattern_match (keys state'))) as Hnames
    by by apply NoDup_names.
  assert (NoDup (omap identity agents)) as Hids.
  { rewrite omap_identity. apply NoDup_names; [done |].
    by apply Forall_fmap. }
  rewrite new_messages_omap by done.
  split; [| by rewrite fst_omap_named].
  apply NoDup_Permutation.
  - apply (NoDup_fmap_1 fst). by rewrite fst_omap_named.
  - apply (NoDup_fmap_1 fst). by apply NoDup_fst_latest_messages.
  - intros [n m]. rewrite elem_of_latest_messages, list_elem_of_omap. split.
    + intros ([k v] & Hin & Hnamed). unfold named in Hnamed. cbn in Hnamed.
      destruct (name_pattern_match k) as [n'|] eqn:En; [| done].
      cbn in Hnamed. injection Hnamed as -> ->.
      apply elem_dict_get in Hin; [| done].
      assert (k <> chat_history) as Hne.
      { intros ->. by rewrite name_pattern_match_chat_history in En. }
      destruct (decide (k ∈ map output_key agents)) as [Hkey | Hkey].
      * apply list_elem_of_fmap in Hkey as (a & -> & Ha). exists a.
        split; [done |]. split; [done |].
        rewrite <- Hin. unfold state'.
        rewrite dict_get_after_agents, Hslot by done.
        symmetry. apply latest_reply_step.
      * unfold state' in Hin.
        rewrite dict_get_after_agents_other in Hin.
        -- by rewrite Hother in Hin.
        -- apply Forall_forall. intros a Ha Heq. apply Hkey. rewrite <- Heq.
           apply list_elem_of_fmap. eauto.
    + intros (a & Ha & Hid & Hlatest). exists (output_key a, m).
      split.
      * apply dict_get_Some_elem. unfold state'.
        rewrite dict_get_after_agents, Hslot by done.
        by rewrite latest_reply_step.
      * unfold named. cbn. unfold identity in Hid. by rewrite Hid.
Qed.

(** A controller that is running has executed every round so far. *)
Lemma session_while_running name description coordinator group n state k i :
  controller
    (run (get_group_chat_agent name description coordinator group n) state k)
  = RUNNING i ->
  session
    (run (get_group_chat_agent name description coordinator group n) state k)
  = session_after coordinator group state k.
Proof.
  revert i. induction k as [|k IH]; intros i; [done |].
  rewrite run_S.
  destruct (controller
              (run (get_group_chat_agent name description coordinator group n)
                 state k)) as [j| |] eqn:E.
  - pose proof (run_counts name description coordinator group n state k) as Hc.
    rewrite E in Hc. destruct Hc as [-> _].
    rewrite (step_running _ _ _ _ _ _ k E). cbn [session session_after].
    intros _. by rewrite (IH k).
  - rewrite step_terminal; [by rewrite E | by rewrite E].
  - rewrite step_terminal; [by rewrite E | by rewrite E].
Qed.

(** ** C5: what the transcript update folds in *)

Lemma latest_reply_silent a i :
  (forall j, (j <= i)%nat -> reply a j = None) -> latest_reply a i = None.
Proof.
  induction i as [|i IH]; intros H; cbn [latest_reply].
  - by rewrite H.
  - rewrite H by done. apply IH. auto.
Qed.

Lemma latest_reply_produced a i message :
  reply a i = Some message -> latest_reply a i = Some message.
Proof. intros H. destruct i; cbn [latest_reply]; by rewrite H. Qed.

Lemma same_slot_same_agent (agents : list LlmAgent) a b :
  NoDup (map output_key agents) -> a ∈ agents -> b ∈ agents ->
  output_key a = output_key b -> a = b.
Proof.
  induction agents as [|c agents IH]; intros Hnd Ha Hb Heq.
  - by apply elem_of_nil in Ha.
  - cbn [map] in Hnd. apply NoDup_cons in Hnd as [Hc Hnd].
    apply elem_of_cons in Ha as [-> | Ha];
      apply elem_of_cons in Hb as [-> | Hb]; [done | | | by apply IH].
    + exfalso. apply Hc. rewrite Heq. apply list_elem_of_fmap. eauto.
    + exfalso. apply Hc. rewrite <- Heq. apply list_elem_of_fmap. eauto.
Qed.

(** C5, as amended.  In a group chat whose agents have output keys of
    their own, started on a new session, the transcript update of every
    executed round appends, after a line feed, one entry
    [[identity]: message] for every agent whose output key is
    [<identity>_message] and that has produced a message in this round or
    in an earlier one, with the latest message of that agent, and nothing
    else; each identity occurs once.  So for these agents every message
    produced in the round is included, once; an agent that produced
    nothing in the round is listed again with the message it produced
    last; and an agent that has produced no message so far has no
    entry. *)
Theorem transcript_fold_latest_messages
    name description coordinator group n history i :
  own_slots (agents_of coordinator group) ->
  controller
    (run (get_group_chat_agent name description coordinator group n)
       (new_session history) i) = RUNNING i ->
  exists entries,
    transcript
      (session (run (get_group_chat_agent name description coordinator group n)
                  (new_session history) (S i)))
    = transcript
        (session (run (get_group_chat_agent name description coordinator group n)
                    (new_session history) i))
      ++ [newline] ++ join [newline] (map transcript_entry entries)
    /\ entries ≡ₚ latest_messages (agents_of coordinator group) i
    /\ NoDup (map fst entries)
    /\ (forall a who message,
          a ∈ agents_of coordinator group -> identity a = Some who ->
          reply a i = Some message -> (who, message) ∈ entries)
    /\ (forall a who,
          a ∈ agents_of coordinator group -> identity a = Some who ->
          (forall j, (j <= i)%nat -> reply a j = None) ->
          who ∉ map fst entries).
Proof.
  intros Hown Hrun.
  pose proof (session_while_running _ _ _ _ _ _ _ _ Hrun) as Hs.
  pose proof (slots_hold_session_after coordinator group history i Hown)
    as Hinv.
  rewrite <- Hs in Hinv.
  destruct (new_messages_after_agents _ i _ Hown Hinv) as [Hperm Hnd].
  eexists. split; [| split; [exact Hperm | split; [exact Hnd | split]]].
  - rewrite run_S, (step_running _ _ _ _ _ _ i Hrun). cbn [session].
    rewrite transcript_after_round, updated_chat_history_appends.
    rewrite transcript_after_agents; [done | apply Hown].
  - intros a who message Ha Hid Hreply. rewrite Hperm.
    apply elem_of_latest_messages. exists a.
    split; [done |]. split; [done |]. by apply latest_reply_produced.
  - intros a who Ha Hid Hsilent ((who' & message) & Heq & Hin)%list_elem_of_fmap.
    cbn in Heq. subst who'. rewrite Hperm in Hin.
    apply elem_of_latest_messages in Hin as (b & Hb & Hidb & Hlatest).
    destruct Hown as (Hkeys & Hnl & _).
    assert (a = b) as <-.
    { apply (same_slot_same_agent (agents_of coordinator group)); try done.
      unfold identity in Hid, Hidb.
      eapply name_pattern_match_inj; try done.
      - by eapply Forall_forall in Hnl.
      - by eapply (proj1 (Forall_forall _ _) Hnl b). }
    by rewrite latest_reply_silent in Hlatest.
Qed.

Lemma own_slots_sample :
  own_slots
    (agents_of Coordinator_undecided
       [Researcher_Alice; Researcher_Bob; Browser_Frank]).
Proof. repeat split; compute_done. Qed.

(** Round 1 of a run with a participant that spoke in round 0 only and a
    participant that never speaks. *)
Lemma transcript_fold_latest_messages_witness :
  exists entries,
    transcript
      (session (run (get_group_chat_agent (py "GAIA_Team") []
                       Coordinator_undecided
                       [Researcher_Alice; Researcher_Bob; Browser_Frank] 3)
                  (new_session None) 2))
    = transcript
        (session (run (get_group_chat_agent (py "GAIA_Team") []
                         Coordinator_undecided
                         [Researcher_Alice; Researcher_Bob; Browser_Frank] 3)
                    (new_session None) 1))
      ++ [newline] ++ join [newline] (map transcript_entry entries)
    /\ entries
       ≡ₚ latest_messages
            (agents_of Coordinator_undecided
               [Researcher_Alice; Researcher_Bob; Browser_Frank]) 1.
Proof.
  destruct
    (transcript_fold_latest_messages (py "GAIA_Team") [] Coordinator_undecided
       [Researcher_Alice; Researcher_Bob; Browser_Frank] 3 None 1
       own_slots_sample eq_refl)
    as (entries & Heq & Hperm & _).
  exists entries. by split.
Defined.

(** C5 as the specification states it fails: in round 1 of this run the
    participant produces nothing, and the update appends its message of
    round 0 once more, besides the message of the coordinator. *)
Lemma transcript_fold_repeats_stale_message :
  reply Researcher_Alice 1 = None
  /\ transcript
       (session (run (get_group_chat_agent (py "GAIA_Team") []
                        Coordinator_undecided [Researcher_Alice] 3)
                   (new_session None) 2))
     = transcript
         (session (run (get_group_chat_agent (py "GAIA_Team") []
                          Coordinator_undecided [Researcher_Alice] 3)
                     (new_session None) 1))
       ++ [newline]
       ++ join [newline]
            (map transcript_entry
               [(py "Researcher_Alice", py "I found 42.");
                (py "Coordinator", py "Please go on.")])
  /\ ~ folds_messages_of_the_round Coordinator_undecided [Researcher_Alice] 3
         (new_session None).
Proof.
  split; [reflexivity |]. split; [by vm_compute |].
  intros H. destruct (H 1%nat eq_refl) as (entries & Hperm & Heq).
  change (produced_in_round (agents_of Coordinator_undecided [Researcher_Alice]) 1)
    with [(py "Coordinator", py "Please go on.")] in Hperm.
  apply Permutation_singleton_r in Hperm as ->.
  vm_compute in Heq. discriminate Heq.
Qed.

(** ** Stripping and lines *)

Lemma skip_spaces_idem s : skip_spaces (skip_spaces s) = skip_spaces s.
Proof.
  induction s as [|c s IH]; [done |]. cbn [skip_spaces].
  destruct (isspace c) eqn:E; [done |]. cbn [skip_spaces]. by rewrite E.
Qed.

Lemma strip_lstrip s : strip (skip_spaces s) = strip s.
Proof. unfold strip, lstrip. by rewrite skip_spaces_idem. Qed.

Lemma skip_spaces_app_nonblank s tail :
  skip_spaces s <> [] -> skip_spaces (s ++ tail) = skip_spaces s ++ tail.
Proof.
  induction s as [|c s IH]; [done |]. cbn [skip_spaces app].
  destruct (isspace c); [apply IH | done].
Qed.

Lemma strip_nonblank s : strip s <> [] -> skip_spaces s <> [].
Proof. unfold strip, lstrip, rstrip. intros H E. apply H. by rewrite E. Qed.

Lemma skip_spaces_no_newline s : newline ∉ s -> newline ∉ skip_spaces s.
Proof.
  induction s as [|c s IH]; [done |]. cbn [skip_spaces].
  intros [Hc Hs]%not_elem_of_cons.
  destruct (isspace c); [by apply IH |]. by apply not_elem_of_cons.
Qed.

Lemma take_line_app s tail :
  newline ∉ s -> tail = [] \/ (exists t, tail = newline :: t) ->
  take_line (s ++ tail) = s.
Proof.
  intros Hs Htail. induction s as [|c s IH]; cbn [app take_line].
  - destruct Htail as [-> | [t ->]]; [done |]. cbn [take_line].
    by rewrite N.eqb_refl.
  - apply not_elem_of_cons in Hs as [Hc Hs].
    destruct (N.eqb_spec c newline) as [-> | _]; [done |].
    by rewrite IH.
Qed.

Lemma split_lines_nonempty s : split_lines s <> [].
Proof.
  destruct s as [|c s]; [done |]. cbn [split_lines].
  destruct (c =? newline); [done |]. by destruct (split_lines s).
Qed.

Lemma join_split_lines s : join [newline] (split_lines s) = s.
Proof.
  induction s as [|c s IH]; [done |]. cbn [split_lines].
  pose proof (split_lines_nonempty s) as Hne.
  destruct (split_lines s) as [|l ls]; [done |].
  destruct (N.eqb_spec c newline) as [-> | Hc].
  - cbn [join app] in *. by rewrite IH.
  - rewrite <- IH. by destruct ls.
Qed.

Lemma split_lines_one s line : split_lines s = [line] -> line = s.
Proof. intros H. by rewrite <- (join_split_lines s), H. Qed.

(** ** C7: a missing final-answer line is not fatal *)

(** The search finds the first place at which the literal matches, and
    takes what follows it: past the white space, up to the end of the
    line. *)
Lemma search_final_answer_first before prefix rest :
  no_final_answer_within before (prefix ++ rest) ->
  ci_equal FINAL_ANSWER prefix ->
  search_final_answer (before ++ prefix ++ rest)
  = Some (take_line (skip_spaces rest)).
Proof.
  intros Hfirst Hp. induction before as [|c before IH].
  - cbn [app]. destruct rest as [|r rest'] eqn:Er.
    + assert (match_literal FINAL_ANSWER (prefix ++ []) = Some []) as H
        by (apply match_literal_spec; eauto).
      destruct prefix; cbn [search_final_answer app] in *; by rewrite H.
    + assert (match_literal FINAL_ANSWER (prefix ++ r :: rest')
              = Some (r :: rest')) as H
        by (apply match_literal_spec; eauto).
      destruct prefix; cbn [search_final_answer app] in *; by rewrite H.
  - pose proof (Hfirst [] (c :: before) eq_refl ltac:(done)) as H0.
    cbn [app] in H0. cbn [app search_final_answer]. rewrite H0.
    apply IH. intros b1 b2 -> Hb2. by apply (Hfirst (c :: b1) b2).
Qed.

Lemma task_result_answer task_id response answer :
  extract_final_answer response = Some answer ->
  task_result task_id response
  = Answered task_id
      (if decide (answer = []) then NO_FINAL_ANSWER_FOUND else answer)
      response.
Proof.
  intros H. unfold task_result. rewrite H. by destruct answer.
Qed.

Lemma no_final_answer_withinb_sound before rest :
  no_final_answer_withinb before rest = true ->
  no_final_answer_within before rest.
Proof.
  induction before as [|c before IH]; intros H b1 b2 Heq Hb2.
  - symmetry in Heq. apply app_eq_nil in Heq as [_ ->]. done.
  - cbn [no_final_answer_withinb] in H. apply andb_true_iff in H as [H1 H2].
    destruct b1 as [|c' b1]; cbn [app] in Heq.
    + subst b2. by destruct (match_literal _ _).
    + injection Heq as -> ->. by apply (IH H2 b1 b2).
Qed.

(** C7, as amended.  A missing final-answer line is not fatal: when the
    extractor returns no answer, or an empty one, for the final response
    text, the driver writes the record of a task that ran, with the
    sentinel [NO_FINAL_ANSWER_FOUND] for answer and the response for
    trace; and an answer that is not empty is recorded as it is.  When
    [FINAL ANSWER:] occurs in the text, in any casing and at any place of a
    line, and the first occurrence is followed on its line by a remainder
    that is not blank, the record carries that remainder, stripped. *)
Theorem missing_final_answer_not_fatal task_id response :
  (extract_final_answer response = None
   \/ extract_final_answer response = Some [] ->
   task_result task_id response
   = Answered task_id NO_FINAL_ANSWER_FOUND response)
  /\ (forall answer,
        extract_final_answer response = Some answer -> answer <> [] ->
        task_result task_id response = Answered task_id answer response)
  /\ (forall before prefix rest tail,
        response = before ++ prefix ++ rest ++ tail ->
        ci_equal FINAL_ANSWER prefix ->
        no_final_answer_within before (prefix ++ rest ++ tail) ->
        newline ∉ rest ->
        tail = [] \/ (exists t, tail = newline :: t) ->
        strip rest <> [] ->
        task_result task_id response = Answered task_id (strip rest) response).
Proof.
  split; [| split].
  - intros [H | H]; unfold task_result; by rewrite H.
  - intros answer H Hne. unfold task_result. rewrite H.
    by destruct answer.
  - intros before prefix rest tail -> Hp Hfirst Hnl Htail Hrest.
    rewrite (task_result_answer _ _ (strip rest)).
    + by destruct (decide (strip rest = [])).
    + unfold extract_final_answer.
      rewrite (search_final_answer_first before prefix (rest ++ tail)) by done.
      rewrite skip_spaces_app_nonblank by by apply strip_nonblank.
      rewrite take_line_app; [| by apply skip_spaces_no_newline | done].
      by rewrite strip_lstrip.
Qed.

(** A response of two lines without the answer line, for which the record
    carries the sentinel; a response that ends with the bare prefix, for
    which the extracted answer is empty and the record carries the
    sentinel too; and a response with the answer line in the middle, in
    mixed case. *)
Lemma missing_final_answer_not_fatal_witness :
  task_result (py "task_75") (py "I think" ++ [newline] ++ py "forty-two")
  = Answered (py "task_75") NO_FINAL_ANSWER_FOUND
      (py "I think" ++ [newline] ++ py "forty-two")
  /\ task_result (py "task_75") (py "So much for that. Final answer: ")
     = Answered (py "task_75") NO_FINAL_ANSWER_FOUND
         (py "So much for that. Final answer: ")
  /\ task_result (py "task_75")
       (py "Summary." ++ [newline] ++ py "Final Answer:  Paris "
        ++ [newline] ++ py "Bye")
     = Answered (py "task_75") (py "Paris")
         (py "Summary." ++ [newline] ++ py "Final Answer:  Paris "
          ++ [newline] ++ py "Bye").
Proof.
  split; [| split].
  - apply (proj1 (missing_final_answer_not_fatal (py "task_75")
                    (py "I think" ++ [newline] ++ py "forty-two"))).
    left. reflexivity.
  - apply (proj1 (missing_final_answer_not_fatal (py "task_75")
                    (py "So much for that. Final answer: "))).
    right. reflexivity.
  - destruct (missing_final_answer_not_fatal (py "task_75")
                (py "Summary." ++ [newline] ++ py "Final Answer:  Paris "
                 ++ [newline] ++ py "Bye")) as (_ & _ & H).
    apply (H (py "Summary." ++ [newline]) (py "Final Answer:") (py "  Paris ")
             ([newline] ++ py "Bye")).
    + reflexivity.
    + repeat constructor.
    + by apply no_final_answer_withinb_sound.
    + compute_done.
    + right. by eexists.
    + by vm_compute.
Defined.

(** C7 as the specification states it fails.  When nothing but the line
    feed follows the prefix, the answer is taken from the next line and
    not from the empty remainder; and an occurrence of the prefix inside
    an earlier line wins over a later line that begins with it. *)
Lemma final_answer_not_rest_of_line :
  task_result (py "task_75") (py "FINAL ANSWER:" ++ [newline] ++ py "42")
  = Answered (py "task_75") (py "42")
      (py "FINAL ANSWER:" ++ [newline] ++ py "42")
  /\ task_result (py "task_75")
       (py "Draft final answer: 41" ++ [newline] ++ py "FINAL ANSWER: 42")
     = Answered (py "task_75") (py "41")
         (py "Draft final answer: 41" ++ [newline] ++ py "FINAL ANSWER: 42")
  /\ ~ answers_with_rest_of_line.
Proof.
  split; [by vm_compute |]. split; [by vm_compute |].
  intros H.
  specialize (H (py "task_75")
                (py "Draft final answer: 41" ++ [newline]
                 ++ py "FINAL ANSWER: 42")
                (py "FINAL ANSWER: 42") (py "FINAL ANSWER:") (py " 42")).
  assert (py "FINAL ANSWER: 42"
          ∈ split_lines (py "Draft final answer: 41" ++ [newline]
                         ++ py "FINAL ANSWER: 42")) as Hline
    by compute_done.
  specialize (H Hline eq_refl (ci_equal_refl _)).
  vm_compute in H. discriminate H.
Qed.

(** ** C10: the fallbacks of the extractor *)

(** C10.  For a response in which the search for [FINAL ANSWER:] finds no
    match: when the stripped response is one line, the extractor returns
    that line, stripped, which is the stripped response; when it has two
    lines or more and the line before the last is not [FINAL ANSWER:] once
    stripped and put in upper case, the extractor returns no answer. *)
Theorem extractor_fallbacks response :
  search_final_answer response = None ->
  (forall line,
     split_lines (strip response) = [line] ->
     extract_final_answer response = Some (strip line)
     /\ line = strip response)
  /\ ((2 <= length (split_lines (strip response)))%nat ->
      upper (strip (line_before_last (split_lines (strip response))))
      <> FINAL_ANSWER ->
      extract_final_answer response = None).
Proof.
  intros Hno. unfold extract_final_answer. rewrite Hno. split.
  - intros line Hline. rewrite Hline.
    split; [done | by apply split_lines_one].
  - intros Hlen Hupper.
    rewrite (bool_decide_eq_false_2 _ Hupper), andb_false_r.
    rewrite bool_decide_eq_false_2; [done | lia].
Qed.

(** A response of one line without the prefix, and one of two lines. *)
Lemma extractor_fallbacks_witness :
  extract_final_answer (py "  forty-two ") = Some (py "forty-two")
  /\ extract_final_answer (py "I think" ++ [newline] ++ py "forty-two") = None.
Proof.
  split.
  - destruct (extractor_fallbacks (py "  forty-two ") eq_refl) as [H _].
    by destruct (H (py "forty-two") eq_refl) as [-> _].
  - destruct (extractor_fallbacks (py "I think" ++ [newline] ++ py "forty-two")
                eq_refl) as [_ H].
    apply H; [vm_compute; lia | by vm_compute].
Defined.

(** ** C8: what the archive tool returns *)

Ltac destruct_matches :=
  repeat (match goal with
          | |- context [match ?x with _ => _ end] => destruct x eqn:?
          | H : context [match ?x with _ => _ end] |- _ => destruct x eqn:?
          end; simplify_eq).


Section UnzipFacts.

Context {W : Type} (os : OS W).





End UnzipFacts.

(** C8.  The code breaks the claim at this input: when the extraction
    directory is there and cannot be listed, the test for an earlier
    extraction, [any(extract_dir.iterdir())], raises outside every [try]
    block, and [unzip_file] raises to its caller where the claim has it
    return an error dictionary, as it does next to it for the [OSError] of
    [mkdir]. *)
Theorem unzip_file_raises :
  unzip_file (sample_os true false) (py "/data/a.zip") tt
  = (Raises {| exception_class := OSError;
               exception_text :=
                 py "[Errno 13] Permission denied: '/tmp/out/a'" |}, tt)
  /\ ~ always_returns_response.
Proof.
  split; [by vm_compute |].
  intros H.
  destruct (H unit (sample_os true false) (py "/data/a.zip") tt)
    as (d & w' & Heq & _).
  vm_compute in Heq. discriminate Heq.
Qed.

(* ===================================================================== *)
(** * Part III: further properties of the code                            *)
(* ===================================================================== *)

(** ** More on stripping *)

Lemma skip_spaces_snoc_nonspace s c :
  isspace c = false -> exists y, skip_spaces (s ++ [c]) = y ++ [c].
Proof.
  intros Hc. induction s as [|d s [y IH]]; cbn [app skip_spaces].
  - rewrite Hc. by exists [].
  - destruct (isspace d); [by exists y |]. by exists (d :: s).
Qed.

Lemma rstrip_cons_nonspace c s :
  isspace c = false -> exists u, rstrip (c :: s) = c :: u.
Proof.
  intros Hc. unfold rstrip. cbn [rev].
  destruct (skip_spaces_snoc_nonspace (rev s) c Hc) as [y ->].
  rewrite rev_app_distr. by exists (rev y).
Qed.

Lemma rstrip_idem s : rstrip (rstrip s) = rstrip s.
Proof. unfold rstrip. by rewrite rev_involutive, skip_spaces_idem. Qed.

(** Stripping a stripped text changes nothing. *)
Lemma strip_idem s : strip (strip s) = strip s.
Proof.
  unfold strip, lstrip.
  destruct (skip_spaces_spec s) as (ws & _ & _ & Hhd).
  destruct (skip_spaces s) as [|c t]; [done |].
  destruct (rstrip_cons_nonspace c t Hhd) as [u Hu].
  rewrite Hu. cbn [skip_spaces]. rewrite Hhd, <- Hu. apply rstrip_idem.
Qed.

Lemma elem_of_skip_spaces x s : x ∈ skip_spaces s -> x ∈ s.
Proof.
  induction s as [|c s IH]; [done |]. cbn [skip_spaces].
  destruct (isspace c); [| done]. intros H. right. by apply IH.
Qed.

Lemma elem_of_rev (x : N) s : x ∈ rev s <-> x ∈ s.
Proof. rewrite !list_elem_of_In. symmetry. apply in_rev. Qed.

Lemma elem_of_strip x s : x ∈ strip s -> x ∈ s.
Proof.
  unfold strip, lstrip, rstrip. rewrite elem_of_rev.
  intros H%elem_of_skip_spaces. rewrite elem_of_rev in H.
  by apply elem_of_skip_spaces.
Qed.

Lemma skip_spaces_all_spaces s : all_spaces s -> skip_spaces s = [].
Proof.
  induction 1 as [|c s Hc _ IH]; [done |]. cbn [skip_spaces]. by rewrite Hc.
Qed.

Lemma strip_all_spaces s : all_spaces s -> strip s = [].
Proof.
  intros H. unfold strip, lstrip. by rewrite skip_spaces_all_spaces.
Qed.

(** A text lies between what [strip] takes off its two ends. *)
Lemma strip_between s : exists a b, s = a ++ strip s ++ b.
Proof.
  unfold strip, lstrip, rstrip.
  destruct (skip_spaces_spec s) as (ws & Hs & _).
  destruct (skip_spaces_spec (rev (skip_spaces s))) as (ws' & Hr & _).
  exists ws, (rev ws'). rewrite <- rev_app_distr, <- Hr, rev_involutive.
  exact Hs.
Qed.

(** ** More on matching *)

Lemma no_match_withinb_sound lit before rest :
  no_match_withinb lit before rest = true -> no_match_within lit before rest.
Proof.
  induction before as [|c before IH]; intros H b1 b2 Heq Hb2.
  - symmetry in Heq. apply app_eq_nil in Heq as [_ ->]. done.
  - cbn [no_match_withinb] in H. apply andb_true_iff in H as [H1 H2].
    destruct b1 as [|c' b1]; cbn [app] in Heq.
    + subst b2. by destruct (match_literal _ _).
    + injection Heq as -> ->. by apply (IH H2 b1 b2).
Qed.

Lemma match_literal_length lit text rest :
  match_literal lit text = Some rest ->
  length text = (length lit + length rest)%nat.
Proof.
  intros (m & -> & Hm)%match_literal_spec.
  by rewrite length_app, (ci_equal_length _ _ Hm).
Qed.

(** ** [extract_tag_content] *)

Lemma find_closing_spec close text body rest :
  find_closing close text = Some (body, rest) ->
  exists c, text = body ++ c ++ rest /\ ci_equal close c
            /\ no_match_within close body (c ++ rest).
Proof.
  revert body. induction text as [|d text IH]; intros body;
    cbn [find_closing].
  - destruct (match_literal close []) as [r|] eqn:E; [| done].
    intros [= <- <-]. apply match_literal_spec in E as (c & Hc & Hci).
    exists c. split; [done |]. split; [done |].
    intros b1 b2 Hb Hb2. symmetry in Hb. by apply app_eq_nil in Hb as [_ ->].
  - destruct (match_literal close (d :: text)) as [r|] eqn:E.
    + intros [= <- <-]. apply match_literal_spec in E as (c & Hc & Hci).
      exists c. split; [done |]. split; [done |].
      intros b1 b2 Hb Hb2. symmetry in Hb.
      by apply app_eq_nil in Hb as [_ ->].
    + destruct (find_closing close text) as [[body' rest']|] eqn:E'; [| done].
      intros [= <- <-].
      destruct (IH body' eq_refl) as (c & -> & Hci & Hno).
      exists c. split; [done |]. split; [done |].
      intros b1 b2 Hb Hb2. destruct b1 as [|d' b1]; cbn [app] in Hb.
      * by subst b2.
      * injection Hb as -> ->. by apply (Hno b1 b2).
Qed.

Lemma find_closing_first close body c rest :
  ci_equal close c -> no_match_within close body (c ++ rest) ->
  find_closing close (body ++ c ++ rest) = Some (body, rest).
Proof.
  intros Hc Hno.
  assert (match_literal close (c ++ rest) = Some rest) as Hm
    by (apply match_literal_spec; eauto).
  induction body as [|d body IH]; cbn [app].
  - destruct (c ++ rest); cbn [find_closing]; by rewrite Hm.
  - cbn [find_closing].
    pose proof (Hno [] (d :: body) eq_refl ltac:(done)) as H0.
    cbn [app] in H0. rewrite H0, IH; [done |].
    intros b1 b2 -> Hb2. by apply (Hno (d :: b1) b2).
Qed.

Lemma find_closing_complete close body c rest :
  ci_equal close c -> is_Some (find_closing close (body ++ c ++ rest)).
Proof.
  intros Hc.
  assert (match_literal close (c ++ rest) = Some rest) as Hm
    by (apply match_literal_spec; eauto).
  induction body as [|d body [[b r] IH]]; cbn [app].
  - destruct (c ++ rest); cbn [find_closing]; by rewrite Hm.
  - cbn [find_closing]. rewrite IH.
    by destruct (match_literal close (d :: body ++ c ++ rest)).
Qed.

Lemma match_pair_here_spec tag text body rest :
  match_pair_here tag text = Some (body, rest) ->
  exists o c,
    text = o ++ body ++ c ++ rest
    /\ ci_equal (py "<" ++ tag ++ py ">") o
    /\ ci_equal (py "</" ++ tag ++ py ">") c
    /\ no_match_within (py "</" ++ tag ++ py ">") body (c ++ rest).
Proof.
  unfold match_pair_here.
  destruct (match_literal _ text) as [after|] eqn:E; [| done].
  apply match_literal_spec in E as (o & -> & Ho).
  intros (c & -> & Hc & Hno)%find_closing_spec. eauto 10.
Qed.

Lemma match_pair_here_shorter tag text body rest :
  match_pair_here tag text = Some (body, rest) ->
  (length rest < length text)%nat.
Proof.
  intros (o & c & -> & Ho & _)%match_pair_here_spec.
  apply ci_equal_length in Ho. rewrite !length_app, Ho.
  rewrite !length_app. cbn [length py]. unfold py. cbn. lia.
Qed.

Lemma has_pair_cons tag d text : has_pair tag text -> has_pair tag (d :: text).
Proof.
  intros (pre & o & body & c & post & -> & Ho & Hc).
  exists (d :: pre), o, body, c, post. by split.
Qed.

(** With enough fuel, [re.findall] finds a match exactly when the text
    holds an opening tag with a closing tag after it. *)
Lemma findall_pairs_nonempty fuel tag text :
  (length text < fuel)%nat ->
  findall_pairs fuel tag text <> [] <-> has_pair tag text.
Proof.
  revert text. induction fuel as [|fuel IH]; intros text Hfuel; [lia |].
  cbn [findall_pairs].
  destruct (match_pair_here tag text) as [[body rest]|] eqn:E.
  - split; [intros _ | done].
    apply match_pair_here_spec in E as (o & c & -> & Ho & Hc & _).
    by exists [], o, body, c, rest.
  - destruct text as [|d text].
    + split; [done |].
      intros (pre & o & body & c & post & Heq & Ho & _).
      apply ci_equal_length in Ho. apply (f_equal length) in Heq.
      rewrite !length_app, Ho, !length_app in Heq.
      unfold py in Heq. cbn in Heq. lia.
    + cbn [length] in Hfuel. rewrite IH by lia. split.
      * apply has_pair_cons.
      * intros (pre & o & body & c & post & Heq & Ho & Hc).
        destruct pre as [|d' pre]; cbn [app] in Heq.
        -- exfalso. unfold match_pair_here in E. rewrite Heq in E.
           assert (match_literal (py "<" ++ tag ++ py ">")
                     (o ++ body ++ c ++ post) = Some (body ++ c ++ post))
             as Hm by (apply match_literal_spec; eauto).
           rewrite Hm in E.
           destruct (find_closing_complete _ body c post Hc) as [x Hx].
           by rewrite Hx in E.
        -- injection Heq as -> ->. by exists pre, o, body, c, post.
Qed.

(** For a tag of ASCII letters, digits and underscores,
    [extract_tag_content] returns [None] exactly for the texts that hold no
    opening tag with a closing tag after it, in any casing: an opening tag
    alone, a closing tag alone, a closing tag before the opening one and a
    self-closing tag all give [None]. *)
Theorem extract_tag_content_None text tag :
  word_tag tag ->
  extract_tag_content text tag = None <-> ~ has_pair tag text.
Proof.
  intros _. unfold extract_tag_content.
  pose proof (findall_pairs_nonempty (S (length text)) tag text
                ltac:(lia)) as H.
  destruct (findall_pairs _ tag text) as [|body all].
  - split; [| done]. intros _ Hp. by apply H in Hp.
  - split; [done |]. intros Hn. exfalso. apply Hn, H. done.
Qed.

Lemma has_pair_tag_present tag text :
  has_pair tag text -> check_tag_presence text tag = true.
Proof.
  intros (pre & o & body & c & post & -> & Ho & _).
  apply search_tag_spec. exists pre, (o ++ body ++ c ++ post).
  split; [done |]. unfold match_tag_here.
  rewrite app_assoc in Ho.
  apply ci_equal_app in Ho as (t & e & -> & Ht & He).
  apply ci_equal_no_letter in He as ->; [| by repeat constructor].
  assert (match_literal (py "<" ++ tag)
            ((t ++ py ">") ++ body ++ c ++ post)
          = Some (py ">" ++ body ++ c ++ post)) as ->.
  { apply match_literal_spec. exists t. split; [| done].
    by rewrite <- app_assoc. }
  apply orb_true_iff. right. done.
Qed.

(** Whenever [extract_tag_content] extracts something for a tag of ASCII
    letters, digits and underscores, [check_tag_presence] finds that tag in
    the same text. *)
Theorem extract_tag_content_presence text tag content :
  word_tag tag ->
  extract_tag_content text tag = Some content ->
  check_tag_presence text tag = true.
Proof.
  intros _ H. apply has_pair_tag_present.
  apply (findall_pairs_nonempty (S (length text))); [lia |].
  unfold extract_tag_content in H.
  by destruct (findall_pairs _ tag text).
Qed.

Lemma findall_pairs_fuel fuel fuel' tag text :
  (length text < fuel)%nat -> (length text < fuel')%nat ->
  findall_pairs fuel tag text = findall_pairs fuel' tag text.
Proof.
  revert fuel' text. induction fuel as [|fuel IH]; intros fuel' text H H';
    [lia |].
  destruct fuel' as [|fuel']; [lia |]. cbn [findall_pairs].
  destruct (match_pair_here tag text) as [[body rest]|] eqn:E.
  - apply match_pair_here_shorter in E. f_equal. apply IH; lia.
  - destruct text as [|d text]; [done |]. cbn [length] in *. apply IH; lia.
Qed.

Lemma findall_pairs_no_opening fuel tag d text :
  match_literal (py "<" ++ tag ++ py ">") (d :: text) = None ->
  findall_pairs (S fuel) tag (d :: text) = findall_pairs fuel tag text.
Proof.
  intros H. cbn [findall_pairs]. unfold match_pair_here. by rewrite H.
Qed.

Lemma findall_pairs_skip fuel tag before rest :
  no_match_within (py "<" ++ tag ++ py ">") before rest ->
  (length (before ++ rest) < fuel)%nat ->
  findall_pairs fuel tag (before ++ rest) = findall_pairs fuel tag rest.
Proof.
  revert fuel. induction before as [|d before IH]; intros fuel Hno Hfuel;
    [done |].
  destruct fuel as [|fuel]; [cbn [app length] in Hfuel; lia |].
  pose proof (Hno [] (d :: before) eq_refl ltac:(done)) as H0.
  cbn [app length] in *. rewrite findall_pairs_no_opening by done.
  rewrite IH; [| intros b1 b2 -> Hb2; by apply (Hno (d :: b1) b2) | lia].
  apply findall_pairs_fuel; rewrite length_app in Hfuel; lia.
Qed.

Lemma has_pair_length tag text :
  has_pair tag text -> (2 * length tag + 5 <= length text)%nat.
Proof.
  intros (pre & o & body & c & post & -> & Ho & Hc).
  apply ci_equal_length in Ho, Hc.
  rewrite !length_app, Ho, Hc, !length_app.
  unfold py. cbn. lia.
Qed.

(** Extraction undoes wrapping, for a tag of ASCII letters, digits and
    underscores.  In a text in which the first opening tag is followed by a
    body that holds no closing tag, then by the closing tag and by a rest
    without another pair, [extract_tag_content] returns the body without
    the white space around it. *)
Theorem extract_tag_content_wrapped tag before o body c rest :
  word_tag tag ->
  ci_equal (py "<" ++ tag ++ py ">") o ->
  ci_equal (py "</" ++ tag ++ py ">") c ->
  no_match_within (py "<" ++ tag ++ py ">") before (o ++ body ++ c ++ rest) ->
  no_match_within (py "</" ++ tag ++ py ">") body (c ++ rest) ->
  ~ has_pair tag rest ->
  extract_tag_content (before ++ o ++ body ++ c ++ rest) tag
  = Some (strip body).
Proof.
  intros _ Ho Hc Hbefore Hbody Hrest. unfold extract_tag_content.
  rewrite findall_pairs_skip by (done || lia).
  cbn [findall_pairs].
  assert (match_pair_here tag (o ++ body ++ c ++ rest) = Some (body, rest))
    as ->.
  { unfold match_pair_here.
    assert (match_literal (py "<" ++ tag ++ py ">") (o ++ body ++ c ++ rest)
            = Some (body ++ c ++ rest)) as ->
      by (apply match_literal_spec; eauto).
    by apply find_closing_first. }
  destruct (findall_pairs (length (before ++ o ++ body ++ c ++ rest)) tag rest)
    as [|x l] eqn:E.
  - cbn [map join]. by rewrite strip_idem.
  - exfalso. apply Hrest.
    apply (findall_pairs_nonempty
             (length (before ++ o ++ body ++ c ++ rest))).
    + apply ci_equal_length in Ho. rewrite !length_app, Ho, !length_app.
      unfold py. cbn. lia.
    + by rewrite E.
Qed.

(** A plan wrapped in its tag, in mixed case, inside other text. *)
Lemma extract_tag_content_wrapped_witness :
  extract_tag_content
    (py "Sure. <Plan> search, then read </PLAN> done") (py "plan")
  = Some (py "search, then read").
Proof.
  apply (extract_tag_content_wrapped (py "plan") (py "Sure. ") (py "<Plan>")
           (py " search, then read ") (py "</PLAN>") (py " done")).
  - by repeat constructor.
  - repeat constructor.
  - repeat constructor.
  - by apply no_match_withinb_sound.
  - by apply no_match_withinb_sound.
  - intros Hp%has_pair_length. unfold py in Hp. cbn in Hp. lia.
Defined.

(** A text from which a content is extracted, its tags in mixed case. *)
Lemma extract_tag_content_presence_witness :
  check_tag_presence (py "<Plan>a</pLAN>") (py "plan") = true.
Proof.
  apply (extract_tag_content_presence (py "<Plan>a</pLAN>") (py "plan")
           (py "a")); [by repeat constructor | reflexivity].
Defined.

(** A text with an opening tag that is never closed and a self-closing
    tag: nothing is extracted, there is no pair. *)
Lemma extract_tag_content_None_witness :
  ~ has_pair (py "plan") (py "<plan>Search the web. <plan/>").
Proof.
  apply (extract_tag_content_None (py "<plan>Search the web. <plan/>")
           (py "plan"));
    [by repeat constructor | reflexivity].
Defined.

(** ** [extract_final_answer] *)

Lemma take_line_no_newline s : newline ∉ take_line s.
Proof.
  induction s as [|c s IH]; cbn [take_line]; [apply not_elem_of_nil |].
  destruct (N.eqb_spec c newline) as [-> | Hc]; [apply not_elem_of_nil |].
  apply not_elem_of_cons. split; [done | exact IH].
Qed.

Lemma search_final_answer_group text group1 :
  search_final_answer text = Some group1 ->
  exists rest, group1 = take_line (skip_spaces rest).
Proof.
  induction text as [|c text IH]; cbn [search_final_answer].
  - destruct (match_literal FINAL_ANSWER []) as [rest|]; [| done].
    intros [= <-]. eauto.
  - destruct (match_literal FINAL_ANSWER (c :: text)) as [rest|]; [| done].
    intros [= <-]. eauto.
Qed.

Lemma split_lines_no_newline s :
  Forall (fun line => newline ∉ line) (split_lines s).
Proof.
  induction s as [|c s IH]; cbn [split_lines].
  - constructor; [apply not_elem_of_nil | constructor].
  - destruct (N.eqb_spec c newline) as [-> | Hc].
    + constructor; [apply not_elem_of_nil | done].
    + destruct (split_lines s) as [|l ls].
      * constructor; [| constructor].
        apply not_elem_of_cons. split; [done | apply not_elem_of_nil].
      * apply Forall_cons in IH as [Hl Hls]. constructor; [| done].
        by apply not_elem_of_cons.
Qed.

Lemma lookup_line_no_newline s i :
  newline ∉ default [] (split_lines s !! i).
Proof.
  destruct (split_lines s !! i) as [line|] eqn:E; cbn.
  - apply list_elem_of_lookup_2 in E.
    by eapply (proj1 (Forall_forall _ _) (split_lines_no_newline s)).
  - apply not_elem_of_nil.
Qed.

(** Whatever the response, an answer the extractor returns is one line
    with no white space at its ends: it holds no line feed, and stripping
    it changes nothing. *)
Theorem extract_final_answer_one_stripped_line response answer :
  extract_final_answer response = Some answer ->
  (newline ∉ answer) /\ strip answer = answer.
Proof.
  unfold extract_final_answer.
  destruct (search_final_answer response) as [group1|] eqn:E.
  - intros [= <-]. apply search_final_answer_group in E as [rest ->].
    split; [| apply strip_idem].
    intros H%elem_of_strip. by apply take_line_no_newline in H.
  - destruct (_ && _).
    + intros [= <-]. split; [| apply strip_idem].
      intros H%elem_of_strip. by apply lookup_line_no_newline in H.
    + destruct (bool_decide _); [| done].
      intros [= <-]. split; [| apply strip_idem].
      intros H%elem_of_strip. by apply lookup_line_no_newline in H.
Qed.

(** An answer followed by more lines. *)
Lemma extract_final_answer_one_stripped_line_witness :
  (newline ∉ py "Paris") /\ strip (py "Paris") = py "Paris".
Proof.
  apply (extract_final_answer_one_stripped_line
           (py "final answer:   Paris  " ++ [newline] ++ py "Regards")).
  reflexivity.
Defined.

Lemma search_final_answer_complete before m rest :
  ci_equal FINAL_ANSWER m ->
  search_final_answer (before ++ m ++ rest) <> None.
Proof.
  intros Hm.
  assert (match_literal FINAL_ANSWER (m ++ rest) = Some rest) as H
    by (apply match_literal_spec; eauto).
  induction before as [|c before IH]; cbn [app].
  - destruct (m ++ rest); cbn [search_final_answer]; by rewrite H.
  - cbn [search_final_answer].
    by destruct (match_literal FINAL_ANSWER (c :: before ++ m ++ rest)).
Qed.

(** The upper case of an ASCII character is one character, which the
    character matches when the case is ignored. *)
Lemma upper_char_ascii c :
  c < 128 -> exists p, upper_char c = [p] /\ literal_ignorecase p c = true.
Proof.
  intros Hc. unfold upper_char.
  destruct (is_lower_ascii c) eqn:El.
  - exists (c - 32). split; [done |].
    unfold is_lower_ascii in El. apply andb_true_iff in El as [H1 H2].
    apply N.leb_le in H1, H2.
    unfold literal_ignorecase, ascii_lower, is_upper_ascii, is_lower_ascii.
    assert ((0x41 <=? c - 32) = true) as -> by (apply N.leb_le; lia).
    assert ((c - 32 <=? 0x5A) = true) as -> by (apply N.leb_le; lia).
    cbn [andb]. replace (c - 32 + 32) with c by lia.
    assert ((0x61 <=? c) = true) as -> by by apply N.leb_le.
    assert ((c <=? 0x7A) = true) as -> by by apply N.leb_le.
    cbn [andb].
    assert ((0x41 <=? c) = true) as -> by (apply N.leb_le; lia).
    assert ((c <=? 0x5A) = false) as -> by (apply N.leb_gt; lia).
    cbn [andb]. by rewrite N.eqb_refl.
  - repeat (match goal with
            | |- context [c =? ?k] =>
                destruct (N.eqb_spec c k) as [-> | _]; [lia |]
            end).
    exists c. split; [done | apply literal_ignorecase_refl].
Qed.

Lemma upper_ascii_ci s lit : is_ascii s -> upper s = lit -> ci_equal lit s.
Proof.
  intros Hs. revert lit. induction Hs as [|c s Hc _ IH]; intros lit Hl.
  - cbn in Hl. subst lit. constructor.
  - unfold upper in Hl. cbn [map concat] in Hl. fold (upper s) in Hl.
    destruct (upper_char_ascii c Hc) as (p & Hp & Hpc).
    rewrite Hp in Hl. subst lit. constructor; [done | by apply IH].
Qed.

Lemma elem_of_join_between sep (line : str) lines :
  line ∈ lines -> exists a b, join sep lines = a ++ line ++ b.
Proof.
  induction lines as [|l lines IH]; intros Hin.
  - by apply elem_of_nil in Hin.
  - apply elem_of_cons in Hin as [-> | Hin].
    + destruct lines as [|l' lines]; cbn [join].
      * exists [], []. by rewrite app_nil_r.
      * exists [], (sep ++ join sep (l' :: lines)). done.
    + destruct (IH Hin) as (a & b & Hab).
      destruct lines as [|l' lines]; [by apply elem_of_nil in Hin |].
      cbn [join] in *. rewrite Hab. exists (l ++ sep ++ a), b.
      by rewrite <- !app_assoc.
Qed.

(** For a response of ASCII characters the fallback for an answer on the
    last line never applies: a line before the last that reads
    [FINAL ANSWER:] in some casing is found by the search already.  So
    when the search finds nothing, the extractor returns the stripped
    response if that is one line, and no answer otherwise. *)
Theorem extract_final_answer_ascii response :
  is_ascii response ->
  search_final_answer response = None ->
  extract_final_answer response
  = if bool_decide (length (split_lines (strip response)) = 1%nat)
    then Some (strip response) else None.
Proof.
  intros Hascii Hno. unfold extract_final_answer. rewrite Hno.
  destruct (bool_decide
              (upper (strip (line_before_last (split_lines (strip response))))
               = FINAL_ANSWER)) eqn:Eu.
  - exfalso. apply bool_decide_eq_true in Eu. unfold line_before_last in Eu.
    destruct (split_lines (strip response) !! _) as [line|] eqn:El;
      cbn [default] in Eu; [| discriminate Eu].
    apply list_elem_of_lookup_2 in El.
    destruct (elem_of_join_between [newline] line _ El) as (a & b & Hjoin).
    rewrite join_split_lines in Hjoin.
    destruct (strip_between response) as (a1 & b1 & Hr).
    destruct (strip_between line) as (a2 & b2 & Hl).
    rewrite Hjoin, Hl in Hr.
    assert (response
            = (a1 ++ a ++ a2) ++ strip line ++ (b2 ++ b ++ b1)) as Hsplit
      by (rewrite Hr at 1; by rewrite <- !app_assoc).
    assert (is_ascii (strip line)) as Hline.
    { unfold is_ascii in *. rewrite Hsplit in Hascii.
      apply Forall_app in Hascii as [_ Hascii].
      by apply Forall_app in Hascii as [Hascii _]. }
    apply (search_final_answer_complete (a1 ++ a ++ a2) (strip line)
             (b2 ++ b ++ b1)).
    + by apply upper_ascii_ci.
    + by rewrite <- Hsplit.
  - rewrite andb_false_r.
    destruct (bool_decide (length (split_lines (strip response)) = 1%nat))
      eqn:E1; [| done].
    apply bool_decide_eq_true in E1.
    destruct (split_lines (strip response)) as [|line [|? ?]] eqn:Es;
      try done.
    apply split_lines_one in Es as ->.
    change (default [] ([strip response] !! 0%nat)) with (strip response).
    by rewrite strip_idem.
Qed.

(** A response of two lines whose first line is not the prefix. *)
Lemma extract_final_answer_ascii_witness :
  extract_final_answer (py "The answer" ++ [newline] ++ py "is 42") = None.
Proof.
  apply (extract_final_answer_ascii
           (py "The answer" ++ [newline] ++ py "is 42")).
  - unfold is_ascii. repeat constructor.
  - reflexivity.
Defined.

(** ** The result of a task *)

Lemma literal_F_no_space c :
  literal_ignorecase 0x46 c = true -> isspace c = false.
Proof.
  unfold literal_ignorecase. change (ascii_lower 0x46) with 0x66.
  change (is_lower_ascii 0x66) with true. cbv iota.
  change (0x66 =? 0x69) with false. change (0x66 =? 0x73) with false.
  change (0x66 =? 0x6B) with false. cbn [andb]. rewrite !orb_false_r.
  intros H%N.eqb_eq. unfold ascii_lower in H.
  destruct (is_upper_ascii c).
  - assert (c = 0x46) as -> by lia. reflexivity.
  - by subst c.
Qed.

Lemma search_final_answer_all_spaces text :
  all_spaces text -> search_final_answer text = None.
Proof.
  induction 1 as [|c text Hc _ IH]; [done |].
  cbn [search_final_answer]. rewrite IH.
  change FINAL_ANSWER with (0x46 :: py "INAL ANSWER:"). cbn [match_literal].
  destruct (literal_ignorecase 0x46 c) eqn:E; [| done].
  apply literal_F_no_space in E. congruence.
Qed.

(** A final response that is empty or holds white space only is recorded
    with the sentinel, not with an empty answer. *)
Theorem blank_response_gets_sentinel task_id response :
  all_spaces response ->
  task_result task_id response
  = Answered task_id NO_FINAL_ANSWER_FOUND response.
Proof.
  intros H. unfold task_result, extract_final_answer.
  rewrite search_final_answer_all_spaces by done.
  by rewrite strip_all_spaces.
Qed.

(** A final response none of whose parts holds a text. *)
Lemma blank_response_gets_sentinel_witness :
  task_result (py "task_75") (final_response_text [None; Some []; None])
  = Answered (py "task_75") NO_FINAL_ANSWER_FOUND [].
Proof.
  apply (blank_response_gets_sentinel (py "task_75")
           (final_response_text [None; Some []; None])).
  constructor.
Defined.

(** ** The names of the message slots *)

Lemma remove_suffix_app suf t : remove_suffix suf (t ++ suf) = Some t.
Proof.
  unfold remove_suffix. rewrite length_app.
  replace (length t + length suf - length suf)%nat with (length t) by lia.
  rewrite drop_app_length, take_app_length. by case_decide.
Qed.

Lemma remove_suffix_other_end suf s t (x y : N) :
  x <> y -> remove_suffix (suf ++ [x]) (s ++ [y]) <> Some t.
Proof.
  intros Hxy H%remove_suffix_Some. rewrite app_assoc in H.
  apply (f_equal last) in H. rewrite !last_snoc in H. congruence.
Qed.

(** What the pattern [^(?P<name>.+)_message$] accepts: the keys made of a
    name, which is not empty and holds no line feed, and [_message], and
    the same keys followed by one line feed.  The name is then the group
    [name] of the match.  No other key matches: not [_message] alone, not
    a key whose name would hold a line feed. *)
Theorem name_pattern_match_spec k name :
  name_pattern_match k = Some name
  <-> name <> [] /\ (newline ∉ name)
      /\ (k = name ++ py "_message"
          \/ k = name ++ py "_message" ++ [newline]).
Proof.
  unfold name_pattern_match. split.
  - intros H.
    destruct (remove_suffix (py "_message") k ≫= slot_name) as [n|] eqn:E1.
    + injection H as ->.
      destruct (remove_suffix (py "_message") k) as [t|] eqn:E0; [| done].
      cbn [mbind option_bind] in E1. unfold slot_name in E1.
      case_decide as Ht; [| done]. destruct Ht as [H1 H2].
      injection E1 as ->. apply remove_suffix_Some in E0. auto.
    + destruct (remove_suffix (py "_message" ++ [newline]) k) as [t|] eqn:E0;
        [| done].
      cbn [mbind option_bind] in H. unfold slot_name in H.
      case_decide as Ht; [| done]. destruct Ht as [H1 H2].
      injection H as ->. apply remove_suffix_Some in E0. auto.
  - intros (H1 & H2 & [-> | ->]).
    + rewrite remove_suffix_app. cbn [mbind option_bind]. unfold slot_name.
      case_decide as Hn; [done |]. by destruct Hn.
    + destruct (remove_suffix (py "_message")
                  (name ++ py "_message" ++ [newline])) as [t|] eqn:E.
      * exfalso. rewrite app_assoc in E.
        by apply (remove_suffix_other_end (py "_messag") _ t 0x65 newline)
          in E.
      * cbn [mbind option_bind]. rewrite remove_suffix_app.
        cbn [mbind option_bind]. unfold slot_name.
        case_decide as Hn; [done |]. by destruct Hn.
Qed.

(** ** The fold of the transcript update on any session *)

Lemma elem_of_dict_set (kv : str * str) k v d :
  kv ∈ dict_set k v d -> kv = (k, v) \/ kv ∈ d.
Proof.
  induction d as [|[k0 v0] d IH]; cbn [dict_set].
  - intros ->%list_elem_of_singleton. by left.
  - case_decide.
    + intros [-> | H']%elem_of_cons; [by left |]. right. by right.
    + intros [-> | H']%elem_of_cons; [right; left |].
      destruct (IH H') as [-> | ?]; [by left |]. right. by right.
Qed.

Lemma fold_messages_facts state acc :
  let result :=
    fold_left
      (fun acc kv =>
         match name_pattern_match kv.1 with
         | Some name => dict_set name kv.2 acc
         | None => acc
         end) state acc in
  (NoDup (keys acc) -> NoDup (keys result))
  /\ (forall n m, (n, m) ∈ result ->
        (n, m) ∈ acc
        \/ exists k, (k, m) ∈ state /\ name_pattern_match k = Some n)
  /\ (forall n, n ∈ keys acc -> n ∈ keys result)
  /\ (forall k m n, (k, m) ∈ state -> name_pattern_match k = Some n ->
        n ∈ keys result).
Proof.
  revert acc. induction state as [|[k0 v0] state IH]; intros acc; cbn zeta.
  - cbn [fold_left]. split; [done |]. split; [by left |]. split; [done |].
    intros k m n H. by apply elem_of_nil in H.
  - cbn [fold_left fst snd].
    destruct (name_pattern_match k0) as [n0|] eqn:E0.
    + destruct (IH (dict_set n0 v0 acc)) as (I1 & I2 & I3 & I4).
      split; [| split; [| split]].
      * intros H. by apply I1, NoDup_keys_dict_set.
      * intros n m H. destruct (I2 n m H) as [H' | (k & Hk & Hn)].
        -- apply elem_of_dict_set in H' as [[= -> ->] | H']; [| by left].
           right. exists k0. split; [left | done].
        -- right. exists k. split; [by right | done].
      * intros n H. apply I3. rewrite keys_dict_set.
        case_decide; [done |]. apply elem_of_app. by left.
      * intros k m n [[= -> ->] | H]%elem_of_cons Hn.
        -- apply I3. rewrite keys_dict_set. rewrite E0 in Hn.
           injection Hn as ->. case_decide; [done |].
           apply elem_of_app. right. left.
        -- by apply (I4 k m n).
    + destruct (IH acc) as (I1 & I2 & I3 & I4).
      split; [done |]. split; [| split; [done |]].
      * intros n m H. destruct (I2 n m H) as [H' | (k & Hk & Hn)];
          [by left |].
        right. exists k. split; [by right | done].
      * intros k m n [[= -> ->] | H]%elem_of_cons Hn; [congruence |].
        by apply (I4 k m n).
Qed.

(** Whatever the session holds, the fold of the transcript update lists
    every name once at most, lists only pairs of a name and a message that
    some key of the session yields, and lists the name of every key that
    matches the pattern. *)
Theorem new_messages_sound_and_complete state :
  NoDup (keys (new_messages state))
  /\ (forall name message,
        (name, message) ∈ new_messages state ->
        exists k, (k, message) ∈ state /\ name_pattern_match k = Some name)
  /\ (forall k message name,
        (k, message) ∈ state -> name_pattern_match k = Some name ->
        name ∈ keys (new_messages state)).
Proof.
  destruct (fold_messages_facts state []) as (H1 & H2 & _ & H4).
  split; [apply H1, NoDup_nil_2 |]. split; [| exact H4].
  intros n m H. destruct (H2 n m H) as [H' | H']; [| done].
  by apply elem_of_nil in H'.
Qed.

(** ** The transcript update run again *)

(** The transcript update writes [chat_history] and nothing else: every
    other key keeps its value, so the messages stay in their slots and the
    update folds the same messages when it is run again.  Run a second
    time on the session the first run left, it appends the same entries
    once more. *)
Theorem transcript_update_keeps_messages name state :
  (forall k, k <> chat_history ->
     dict_get k (fst (deliver (_UpdateChatHistory name state) state))
     = dict_get k state)
  /\ new_messages (fst (deliver (_UpdateChatHistory name state) state))
     = new_messages state
  /\ transcript
       (fst (deliver
               (_UpdateChatHistory name
                  (fst (deliver (_UpdateChatHistory name state) state)))
               (fst (deliver (_UpdateChatHistory name state) state))))
     = transcript state
       ++ ([newline]
           ++ join [newline] (map transcript_entry (new_messages state)))
       ++ ([newline]
           ++ join [newline] (map transcript_entry (new_messages state))).
Proof.
  assert (new_messages (fst (deliver (_UpdateChatHistory name state) state))
          = new_messages state) as Hsame.
  { rewrite deliver_update. apply fold_messages_dict_set_chat_history. }
  split; [| split; [exact Hsame |]].
  - intros k Hk. rewrite deliver_update. by apply dict_get_set_ne.
  - by apply transcript_update_in_sequence.
Qed.

(** ** A round of the group chat *)

(** In a group chat whose coordinator writes under [Coordinator_message]
    and whose participants do not, a round runs its four steps and then
    tells the loop to stop exactly when the tag is found in the message
    the coordinator produced in this round or, when it produced none, in
    the message the session still holds from an earlier round. *)
Theorem round_stops_on_coordinator_message
    name description coordinator group n i state :
  output_key coordinator = Coordinator_message ->
  Forall (fun a => output_key a <> Coordinator_message) group ->
  run_sub_agents
    (loop_sub_agents (get_group_chat_agent name description coordinator group n))
    i state
  = (after_round coordinator group i state,
     check_tag_presence
       (match reply coordinator i with
        | Some message => message
        | None => coordinator_message state
        end)
       consensus_reached).
Proof.
  intros Hkey Hgroup. rewrite run_sub_agents_group_chat. f_equal. f_equal.
  destruct (reply coordinator i) as [message|] eqn:E.
  - by apply coordinator_message_after_round.
  - unfold coordinator_message, dict_get_default, after_round.
    rewrite dict_get_set_ne by done.
    unfold agents_of. rewrite after_agents_app.
    unfold after_agents at 1. cbn [fold_left]. rewrite E.
    by rewrite dict_get_after_agents_other.
Qed.

(** Round 1 of the sample team: the coordinator writes the marker. *)
Lemma round_stops_on_coordinator_message_witness :
  snd (run_sub_agents
         (loop_sub_agents
            (get_group_chat_agent (py "GAIA_Team") [] Coordinator_round_1
               [Researcher_Alice; Researcher_Bob] 5))
         1 (new_session None))
  = true.
Proof.
  rewrite (round_stops_on_coordinator_message (py "GAIA_Team") []
             Coordinator_round_1 [Researcher_Alice; Researcher_Bob] 5 1
             (new_session None)).
  - reflexivity.
  - reflexivity.
  - by repeat constructor.
Defined.

(** ** The transcript over a whole run *)

Lemma transcript_step_prefix name description coordinator group n r :
  Forall (fun a => output_key a <> chat_history) (agents_of coordinator group) ->
  transcript (session r)
  `prefix_of`
  transcript
    (session (step (get_group_chat_agent name description coordinator group n) r)).
Proof.
  intros Hkeys. destruct (controller r) as [i| |] eqn:E.
  - rewrite (step_running _ _ _ _ _ _ i E). cbn [session].
    rewrite transcript_after_round, updated_chat_history_appends.
    rewrite transcript_after_agents by done. by apply prefix_app_r.
  - rewrite step_terminal; [done | by rewrite E].
  - rewrite step_terminal; [done | by rewrite E].
Qed.

(** In a group chat in which no agent has [chat_history] for output key,
    the transcript at any time of a run starts with the transcript at any
    earlier time; in particular the question the driver puts into a new
    session stays at the head of the transcript for the whole run. *)
Theorem transcript_extends_earlier_transcripts
    name description coordinator group n state j k :
  Forall (fun a => output_key a <> chat_history) (agents_of coordinator group) ->
  (j <= k)%nat ->
  transcript
    (session (run (get_group_chat_agent name description coordinator group n)
                state j))
  `prefix_of`
  transcript
    (session (run (get_group_chat_agent name description coordinator group n)
                state k)).
Proof.
  intros Hkeys. induction 1 as [|k Hle IH]; [done |].
  etrans; [exact IH |]. rewrite run_S. by apply transcript_step_prefix.
Qed.

(** The question of the user after three rounds. *)
Lemma transcript_extends_earlier_transcripts_witness :
  py "[user]: How much is 6 times 7?"
  `prefix_of`
  transcript
    (session (run (get_group_chat_agent (py "GAIA_Team") [] Coordinator_undecided
                     [Researcher_Alice; Researcher_Bob] 3)
                (new_session (Some (py "[user]: How much is 6 times 7?"))) 3)).
Proof.
  apply (transcript_extends_earlier_transcripts (py "GAIA_Team") []
           Coordinator_undecided [Researcher_Alice; Researcher_Bob] 3
           (new_session (Some (py "[user]: How much is 6 times 7?"))) 0 3).
  - by repeat constructor.
  - lia.
Defined.

(** ** [_extract_archive] and [_get_file_list] *)

(** [_extract_archive] never raises, whatever the archive modules do: it
    returns success without a message or failure with a message. *)
Theorem extract_archive_result {W : Type} (os : OS W) archive_path extract_to w :
  exists ok err w',
    _extract_archive os archive_path extract_to w = (Returns (ok, err), w')
    /\ (ok = true <-> err = None)
    /\ (ok = false -> exists message, err = Some message).
Proof.
  unfold _extract_archive, try_except, bind, query, command, ret, handle,
    any_Exception.
  destruct_matches;
    (eexists _, _, _; split; [reflexivity |]; split; [done |]; intros; eauto;
     done).
Qed.

Lemma file_info_listed_entry {W : Type} (os : OS W) path w :
  match listed_entry os w path with
  | Some info => file_info os path w = (Returns info, w)
  | None => exists e, file_info os path w = (Raises e, w)
  end.
Proof.
  unfold file_info, listed_entry, bind, query, ret.
  destruct (is_dir os path w) as [d|e]; [| by eauto].
  destruct (is_file os path w) as [[|]|e]; [| | by eauto].
  - destruct (resolve os path w) as [p|e];
      destruct (stat_size os path w) as [size|e']; by eauto.
  - destruct (resolve os path w) as [p|e]; by eauto.
Qed.

(** The loop of [_get_file_list] filters the paths through
    [listed_entry] and leaves the world as it is. *)
Lemma file_infos_omap {W : Type} (os : OS W) paths w :
  file_infos os paths w = (omap (listed_entry os w) paths, w).
Proof.
  induction paths as [|path paths IH]; [done |].
  simpl.
  pose proof (file_info_listed_entry os path w) as H.
  destruct (listed_entry os w path) as [info|].
  - by rewrite H, IH.
  - destruct H as [e ->]. by rewrite IH.
Qed.

Lemma get_file_list_omap {W : Type} (os : OS W) directory w :
  _get_file_list os directory w
  = (Returns (omap (listed_entry os w) (rglob os directory w)), w).
Proof. unfold _get_file_list. by rewrite file_infos_omap. Qed.

(** [_get_file_list] returns, in the order of the walk, the entries of the
    paths the walk of the directory yields, each made from the inspections
    of its own path; a path of which an inspection raises is left out, and
    no other.  The call leaves the world as it is. *)
Theorem get_file_list_result {W : Type} (os : OS W) directory w :
  _get_file_list os directory w
  = (Returns (omap (listed_entry os w) (rglob os directory w)), w)
  /\ (forall path,
        path ∈ rglob os directory w ->
        (exists d f p,
           is_dir os path w = Returns d /\ is_file os path w = Returns f
           /\ resolve os path w = Returns p
           /\ (f = true -> exists size, stat_size os path w = Returns size)) ->
        exists info,
          info ∈ omap (listed_entry os w) (rglob os directory w)
          /\ resolve os path w = Returns (file_path info)
          /\ (file_type info = py "directory" <-> is_dir os path w = Returns true)
          /\ (is_file os path w = Returns true ->
              stat_size os path w = Returns (file_size info))
          /\ (is_file os path w = Returns false -> file_size info = 0)).
Proof.
  split; [apply get_file_list_omap |].
  intros path Hin (d & f & p & Hd & Hf & Hp & Hsize).
  assert (exists info, listed_entry os w path = Some info
                       /\ file_path info = p
                       /\ file_type info = (if d then py "directory" else py "file")
                       /\ (f = true -> stat_size os path w = Returns (file_size info))
                       /\ (f = false -> file_size info = 0))
    as (info & Hinfo & Hpath & Htype & Hst & H0).
  { unfold listed_entry. rewrite Hd, Hf, Hp. destruct f.
    - destruct (Hsize eq_refl) as [size ->]. eexists. by repeat split.
    - eexists. by repeat split. }
  exists info. split; [apply list_elem_of_omap; eauto |].
  split; [by rewrite Hpath |]. split.
  - rewrite Htype, Hd. destruct d; split; done.
  - rewrite Hf. split; intros [= ->]; auto.
Qed.

Lemma get_file_list_result_witness :
  _get_file_list (sample_os true true) (py "/tmp/out/a") tt
  = (Returns [ {| file_path := py "/tmp/out/a/x.txt";
                  file_type := py "file";
                  file_size := 3 |} ], tt).
Proof.
  exact (proj1 (get_file_list_result (sample_os true true) (py "/tmp/out/a") tt)).
Defined.

(** ** [unzip_file] *)

Section UnzipFile.

Context {W : Type} (os : OS W).

(** What [unzip_file] checks before it looks at the extraction directory:
    without [UNZIP_PATH] (unset or empty), for a file that does not exist
    and for a path that is no regular file it returns the error of that
    check, in this order, and the world is as it was. *)
Theorem unzip_file_rejects_without_effect file_path w :
  ((environ_get os (py "UNZIP_PATH") w = None
    \/ environ_get os (py "UNZIP_PATH") w = Some []) ->
   unzip_file os file_path w
   = (Returns (error_response
        (py "Error: UNZIP_PATH environment variable is not set.")), w))
  /\ (forall unzip_base_path p_file_path,
        environ_get os (py "UNZIP_PATH") w = Some unzip_base_path ->
        unzip_base_path <> [] ->
        resolve os file_path w = Returns p_file_path ->
        (path_exists os p_file_path w = Returns false ->
         unzip_file os file_path w
         = (Returns (error_response
              (py "Error: The file " ++ file_path ++ py " does not exist.")), w))
        /\ (path_exists os p_file_path w = Returns true ->
            is_file os p_file_path w = Returns false ->
            unzip_file os file_path w
            = (Returns (error_response
                 (py "Error: " ++ file_path ++ py " is not a file.")), w))).
Proof.
  split.
  - intros [H|H]; unfold unzip_file; by rewrite H.
  - intros base p Henv Hbase Hp.
    unfold unzip_file, bind, query, ret. rewrite Henv, Hp.
    destruct base as [|c base]; [done |].
    split.
    + intros ->. reflexivity.
    + intros -> Hfile. cbn [negb]. by rewrite Hfile.
Qed.

(** An archive whose extraction directory is there and not empty is not
    extracted again: [unzip_file] runs no command (the world is as it was)
    and returns the listing of that directory as a success. *)
Theorem unzip_file_already_extracted
    file_path w unzip_base_path p_file_path base :
  let extract_dir := extraction_directory os p_file_path base in
  environ_get os (py "UNZIP_PATH") w = Some unzip_base_path ->
  unzip_base_path <> [] ->
  resolve os file_path w = Returns p_file_path ->
  path_exists os p_file_path w = Returns true ->
  is_file os p_file_path w = Returns true ->
  resolve os unzip_base_path w = Returns base ->
  path_exists os extract_dir w = Returns true ->
  is_dir os extract_dir w = Returns true ->
  iterdir_any os extract_dir w = Returns true ->
  exists extracted_files_list,
    _get_file_list os extract_dir w = (Returns extracted_files_list, w)
    /\ unzip_file os file_path w
       = (Returns [(status_key, Text success);
                   (extract_dir_key, Text extract_dir);
                   (extracted_files_key, Files extracted_files_list);
                   (message_key,
                    Text (py "Archive '" ++ file_path
                          ++ py "' appears to be already extracted to '"
                          ++ extract_dir ++ py "'."))], w).
Proof.
  intros extract_dir Henv Hbase Hp Hexists Hfile Hb Hdir Hisdir Hany.
  pose proof (get_file_list_omap os extract_dir w) as Hfiles.
  eexists. split; [exact Hfiles |].
  unfold extract_dir, extraction_directory in *.
  unfold unzip_file, bind, query, ret. rewrite Henv, Hp.
  destruct unzip_base_path as [|c rest]; [done |].
  rewrite Hexists. cbn [negb]. rewrite Hfile. cbn [negb]. rewrite Hb.
  rewrite Hdir, Hisdir. cbn [andb]. rewrite Hany. cbn [andb].
  by rewrite Hfiles.
Qed.

(** When the extraction fails, [unzip_file] returns the error of the
    extraction, whatever becomes of the clean-up: the directory it made is
    removed when it is still there, and an exception of the clean-up (of
    the look-up or of the removal) is swallowed. *)
Theorem unzip_file_failed_extraction
    file_path w unzip_base_path p_file_path base w1 w2 err :
  let extract_dir := extraction_directory os p_file_path base in
  environ_get os (py "UNZIP_PATH") w = Some unzip_base_path ->
  unzip_base_path <> [] ->
  resolve os file_path w = Returns p_file_path ->
  path_exists os p_file_path w = Returns true ->
  is_file os p_file_path w = Returns true ->
  resolve os unzip_base_path w = Returns base ->
  path_exists os extract_dir w = Returns false ->
  mkdir os extract_dir w = (Returns tt, w1) ->
  _extract_archive os p_file_path extract_dir w1 = (Returns (false, err), w2) ->
  exists w3,
    unzip_file os file_path w
    = (Returns (error_response
         (py "Failed to extract " ++ file_path ++ py ": "
          ++ format_optional err)), w3)
    /\ (if path_exists os extract_dir w2 is Returns true
        then w3 = (rmtree os extract_dir w2).2 else w3 = w2).
Proof.
  intros extract_dir Henv Hbase Hp Hexists Hfile Hb Hdir Hmkdir Hextract.
  unfold extract_dir, extraction_directory in *.
  unfold unzip_file, try_except, bind, query, command, ret, handle.
  rewrite Henv, Hp.
  destruct unzip_base_path as [|c rest]; [done |].
  rewrite Hexists. cbn [negb]. rewrite Hfile. cbn [negb]. rewrite Hb.
  rewrite Hdir. cbn [andb]. rewrite Hmkdir, Hextract. cbn [negb].
  destruct (path_exists os _ w2) as [[|]|e]; cbn [any_Exception].
  - destruct (rmtree os _ w2) as [[[]|e] w3]; by eexists.
  - by eexists.
  - by eexists.
Qed.

(** A success of [unzip_file] names the directory it extracted to: the
    resolved directory of [UNZIP_PATH] joined with the stem of the resolved
    file (the stem of that stem for a name in [.tar.]).  Its listing holds
    the entries of the paths the walk of that directory yields in the world
    [unzip_file] leaves, in the order of the walk, without the paths of
    which an inspection raises. *)
Theorem unzip_file_success_payload file_path w response w' :
  unzip_file os file_path w = (Returns response, w') ->
  field status_key response = Some (Text success) ->
  exists unzip_base_path p_file_path base,
    let extract_dir := extraction_directory os p_file_path base in
    environ_get os (py "UNZIP_PATH") w = Some unzip_base_path
    /\ resolve os file_path w = Returns p_file_path
    /\ resolve os unzip_base_path w = Returns base
    /\ field extract_dir_key response = Some (Text extract_dir)
    /\ field extracted_files_key response
       = Some (Files (omap (listed_entry os w') (rglob os extract_dir w'))).
Proof.
  unfold unzip_file, try_except, bind, query, command, ret, handle.
  intros Hrun Hstatus.
  destruct_matches; try discriminate Hstatus;
  match goal with
  | H : _get_file_list os ?d ?w1 = (Returns _, _) |- _ =>
      rewrite get_file_list_omap in H; injection H as <- <-
  end;
  eexists _, _, _; cbn zeta; (split; [reflexivity |]);
  (split; [reflexivity |]); (split; [eassumption |]);
  unfold extraction_directory;
  match goal with H : endswith _ _ = _ |- _ => rewrite H end;
  (split; reflexivity).
Qed.

End UnzipFile.

Lemma unzip_file_rejects_without_effect_witness :
  unzip_file (sample_os false true) (py "/data/b.zip") tt
  = (Returns (error_response
       (py "Error: The file " ++ py "/data/b.zip" ++ py " does not exist.")),
     tt).
Proof.
  refine (proj1 (proj2 (unzip_file_rejects_without_effect
                          (sample_os false true) (py "/data/b.zip") tt)
                   (py "/tmp/out") (py "/data/b.zip") _ _ _) _);
    first [reflexivity | discriminate].
Defined.

Lemma unzip_file_already_extracted_witness :
  exists extracted_files_list,
    _get_file_list (sample_os true true) (py "/tmp/out/a") tt
    = (Returns extracted_files_list, tt)
    /\ unzip_file (sample_os true true) (py "/data/a.zip") tt
       = (Returns [(status_key, Text success);
                   (extract_dir_key, Text (py "/tmp/out/a"));
                   (extracted_files_key, Files extracted_files_list);
                   (message_key,
                    Text (py "Archive '" ++ py "/data/a.zip"
                          ++ py "' appears to be already extracted to '"
                          ++ py "/tmp/out/a" ++ py "'."))], tt).
Proof.
  refine (unzip_file_already_extracted (sample_os true true)
            (py "/data/a.zip") tt (py "/tmp/out") (py "/data/a.zip")
            (py "/tmp/out") _ _ _ _ _ _ _ _ _);
    first [reflexivity | discriminate].
Defined.

Lemma unzip_file_failed_extraction_witness :
  exists w3,
    unzip_file broken_archive_os (py "/data/a.zip") 0%nat
    = (Returns (error_response
         (py "Failed to extract " ++ py "/data/a.zip" ++ py ": "
          ++ py "Extraction failed due to archive error: File is not a zip file")),
       w3)
    /\ w3 = 3%nat.
Proof.
  refine (unzip_file_failed_extraction broken_archive_os
            (py "/data/a.zip") 0%nat (py "/tmp/out") (py "/data/a.zip")
            (py "/tmp/out") 1%nat 2%nat
            (Some (py "Extraction failed due to archive error: File is not a zip file"))
            _ _ _ _ _ _ _ _ _);
    first [reflexivity | discriminate].
Defined.

Lemma unzip_file_success_payload_witness :
  exists response,
    unzip_file (sample_os false true) (py "/data/a.zip") tt
    = (Returns response, tt)
    /\ field extract_dir_key response = Some (Text (py "/tmp/out/a"))
    /\ field extracted_files_key response
       = Some (Files [ {| file_path := py "/tmp/out/a/x.txt";
                          file_type := py "file";
                          file_size := 3 |} ]).
Proof.
  eexists. split; [reflexivity |].
  destruct (unzip_file_success_payload (sample_os false true)
              (py "/data/a.zip") tt _ tt eq_refl eq_refl)
    as (unzip_base_path & p_file_path & base & Henv & Hp & Hbase & Hdir & Hfiles).
  injection Henv as <-. injection Hp as <-. injection Hbase as <-.
  split; [exact Hdir | exact Hfiles].
Defined.

(** ** The contract of the responses of [unzip_file] *)


